(** * rommanager.cpp: the ROM set store of mt32-pi

    A shallow embedding of [CROMManager] (src/rommanager.cpp) and the
    properties of its scan, classify, store and query pipeline.

    Pointers to ROM images are modelled as [option addr]: [None] is
    [nullptr], [Some a] the image allocated at address [a].  The two
    libraries the class calls into (the mt32emu ROM validator and the
    FatFs directory enumerator) are modelled by the part of their
    interface that rommanager.cpp uses. *)

From Stdlib Require Import Ascii String NArith.
From stdpp Require Import base decidable option list gmap strings.

Local Open Scope string_scope.
Local Open Scope list_scope.

(** ** Addresses and pointers *)

Definition addr := positive.

(** A [const MT32Emu::ROMImage*]. *)
Abbreviation ptr := (option addr).
Abbreviation nullptr := (@None addr).

(** The contextual conversion of a pointer to [bool]. *)
Definition nonnull (p : ptr) : bool :=
  match p with
  | Some _ => true
  | None => false
  end.

(** [p == q] on pointers. *)
Definition ptr_eqb (p q : ptr) : bool := bool_decide (p = q).

(** ** The mt32emu collaborator *)

Module MT32Emu.

(** Modelled from the spec: [ROMInfo::Type] is declared by mt32emu,
    outside the sources.  A descriptor's kind is [Control], [PCM] or
    neither; [Other] stands for every further enumerator. *)
Inductive ROMType := PCM | Control | Other (code : N).

(** Modelled from the spec: the fields of mt32emu's [ROMInfo] that the
    manager reads, the kind and the name token. *)
Record ROMInfo := {
  type : ROMType;
  shortName : string
}.

(** Modelled from the spec: mt32emu's [ROMImage], an opaque validated
    descriptor.  The record keeps where the object lives and what
    [getROMInfo] returns for it ([None], the null pointer, when the
    validator did not recognise the file). *)
Record ROMImage := {
  addressOf : addr;
  getROMInfo : option ROMInfo
}.

Definition ROMType_eqb (a b : ROMType) : bool :=
  match a, b with
  | PCM, PCM | Control, Control => true
  | Other m, Other n => N.eqb m n
  | _, _ => false
  end.

End MT32Emu.

Import MT32Emu.

(** [s[i]] on a NUL-terminated string.  Index [length s] reads the
    terminator; the short names of mt32emu are all longer than the two
    positions inspected below, so positions past the terminator (which
    C++ leaves undefined) never arise and read as NUL here. *)
Definition char_at (s : string) (i : nat) : ascii :=
  match String.get i s with
  | Some c => c
  | None => Ascii.zero
  end.

(** ** The manager object *)

(** Modelled from the spec: [TROMSet] is declared in rommanager.h,
    outside the sources; its enumerators are the four cases of the
    [switch] statements below. *)
Inductive TROMSet := Any | MT32Old | MT32New | CM32L.

(** Modelled from the spec: the class is declared in rommanager.h,
    outside the sources; its data members are the six that the
    constructor initialises. *)
Record CROMManager := {
  mFileSystem : addr;
  mMT32OldControl : ptr;
  mMT32NewControl : ptr;
  mCM32LControl : ptr;
  mMT32PCM : ptr;
  mCM32LPCM : ptr
}.

(** [CROMManager::CROMManager(FATFS&)]. *)
Definition CROMManager_new (FileSystem : addr) : CROMManager :=
  {| mFileSystem := FileSystem;
     mMT32OldControl := nullptr;
     mMT32NewControl := nullptr;
     mCM32LControl := nullptr;
     mMT32PCM := nullptr;
     mCM32LPCM := nullptr |}.

(** [CROMManager::HaveROMSet]. *)
Definition HaveROMSet (this : CROMManager) (ROMSet : TROMSet) : bool :=
  match ROMSet with
  | Any =>
      (nonnull (mMT32OldControl this) || nonnull (mMT32NewControl this)
       || nonnull (mCM32LControl this))
      && (nonnull (mMT32PCM this) || nonnull (mCM32LPCM this))
  | MT32Old => nonnull (mMT32OldControl this) && nonnull (mMT32PCM this)
  | MT32New => nonnull (mMT32NewControl this) && nonnull (mMT32PCM this)
  | CM32L => nonnull (mCM32LControl this) && nonnull (mCM32LPCM this)
  end.

(** The result of [GetROMSet]: the returned [bool] and the values of
    the two reference parameters on return. *)
Record GetResult := {
  ok : bool;
  outControl : ptr;
  outPCM : ptr
}.

(** [CROMManager::GetROMSet].  [pOutControl] and [pOutPCM] are the
    values the caller's variables hold on entry. *)
Definition GetROMSet (this : CROMManager) (ROMSet : TROMSet)
    (pOutControl pOutPCM : ptr) : GetResult :=
  if negb (HaveROMSet this ROMSet) then
    {| ok := false; outControl := pOutControl; outPCM := pOutPCM |}
  else
    match ROMSet with
    | Any =>
        let pOutControl :=
          if nonnull (mMT32OldControl this) then mMT32OldControl this
          else if nonnull (mMT32NewControl this) then mMT32NewControl this
          else mCM32LControl this in
        let pOutPCM :=
          if ptr_eqb pOutControl (mCM32LControl this)
             && nonnull (mCM32LPCM this)
          then mCM32LPCM this
          else mMT32PCM this in
        {| ok := true; outControl := pOutControl; outPCM := pOutPCM |}
    | MT32Old =>
        {| ok := true; outControl := mMT32OldControl this;
           outPCM := mMT32PCM this |}
    | MT32New =>
        {| ok := true; outControl := mMT32NewControl this;
           outPCM := mMT32PCM this |}
    | CM32L =>
        {| ok := true; outControl := mCM32LControl this;
           outPCM := mCM32LPCM this |}
    end.

(** ** Storing an image *)

(** The target of [romPtr]: which member it points at. *)
Inductive Slot :=
  | AtMT32OldControl
  | AtMT32NewControl
  | AtCM32LControl
  | AtMT32PCM
  | AtCM32LPCM.

(** [*romPtr]. *)
Definition load (romPtr : Slot) (this : CROMManager) : ptr :=
  match romPtr with
  | AtMT32OldControl => mMT32OldControl this
  | AtMT32NewControl => mMT32NewControl this
  | AtCM32LControl => mCM32LControl this
  | AtMT32PCM => mMT32PCM this
  | AtCM32LPCM => mCM32LPCM this
  end.

(** [*romPtr = v]. *)
Definition store (romPtr : Slot) (v : ptr) (this : CROMManager) : CROMManager :=
  match romPtr with
  | AtMT32OldControl =>
      {| mFileSystem := mFileSystem this;
         mMT32OldControl := v;
         mMT32NewControl := mMT32NewControl this;
         mCM32LControl := mCM32LControl this;
         mMT32PCM := mMT32PCM this;
         mCM32LPCM := mCM32LPCM this |}
  | AtMT32NewControl =>
      {| mFileSystem := mFileSystem this;
         mMT32OldControl := mMT32OldControl this;
         mMT32NewControl := v;
         mCM32LControl := mCM32LControl this;
         mMT32PCM := mMT32PCM this;
         mCM32LPCM := mCM32LPCM this |}
  | AtCM32LControl =>
      {| mFileSystem := mFileSystem this;
         mMT32OldControl := mMT32OldControl this;
         mMT32NewControl := mMT32NewControl this;
         mCM32LControl := v;
         mMT32PCM := mMT32PCM this;
         mCM32LPCM := mCM32LPCM this |}
  | AtMT32PCM =>
      {| mFileSystem := mFileSystem this;
         mMT32OldControl := mMT32OldControl this;
         mMT32NewControl := mMT32NewControl this;
         mCM32LControl := mCM32LControl this;
         mMT32PCM := v;
         mCM32LPCM := mCM32LPCM this |}
  | AtCM32LPCM =>
      {| mFileSystem := mFileSystem this;
         mMT32OldControl := mMT32OldControl this;
         mMT32NewControl := mMT32NewControl this;
         mCM32LControl := mCM32LControl this;
         mMT32PCM := mMT32PCM this;
         mCM32LPCM := v |}
  end.

(** The value [romPtr] has when [StoreROM] reaches its final test:
    [None] is the initial [nullptr], left in place when the type is
    neither [Control] nor [PCM]. *)
Definition romPtr (romInfo : ROMInfo) : option Slot :=
  if ROMType_eqb (type romInfo) Control then
    if Ascii.eqb (char_at (shortName romInfo) 10) "1"
       || Ascii.eqb (char_at (shortName romInfo) 10) "b"
    then Some AtMT32OldControl
    else if Ascii.eqb (char_at (shortName romInfo) 10) "2"
    then Some AtMT32NewControl
    else Some AtCM32LControl
  else if ROMType_eqb (type romInfo) PCM then
    if Ascii.eqb (char_at (shortName romInfo) 4) "m"
    then Some AtMT32PCM
    else Some AtCM32LPCM
  else None.

(** [CROMManager::StoreROM]: the returned [bool] and the manager
    afterwards. *)
Definition StoreROM (ROMImage : ROMImage) (this : CROMManager)
    : bool * CROMManager :=
  match getROMInfo ROMImage with
  | None => (false, this)
  | Some romInfo =>
      match romPtr romInfo with
      | None => (false, this)
      | Some target =>
          if nonnull (load target this) then (false, this)
          else (true, store target (Some (addressOf ROMImage)) this)
      end
  end.

(** ** The machine around the manager *)

(** The calls into the collaborators, in the order they happen. *)
Inductive Event :=
  | EvOpen (pPath : string) (opened : bool)
  | EvLogError (pPath : string)
  | EvMakeROMImage (a : addr)
  | EvFreeROMImage (a : addr)
  | EvDeleteFile (pPath : string).

(** The manager, the ROM images that are currently allocated, and the
    collaborator calls made so far. *)
Record State := {
  self : CROMManager;
  heap : gset addr;
  trace : list Event
}.

(** The FatFs declarations that [ScanROMs] uses; ff.h is outside the
    sources. *)
Module FatFs.

(** Modelled from the spec: the result code of the directory
    enumerator, success or one of its failures. *)
Inductive FRESULT := FR_OK | FR_DISK_ERR | FR_NO_PATH | FR_OTHER (code : N).

(** Modelled from the spec: a directory entry, with its name and its
    attribute byte. *)
Record FILINFO := {
  fname : string;
  fattrib : N
}.

(** Modelled from the spec: the attribute bits for hidden, system and
    directory entries, with the values ff.h gives them. *)
Definition AM_HID : N := 2.
Definition AM_SYS : N := 4.
Definition AM_DIR : N := 16.

Definition is_FR_OK (r : FRESULT) : bool :=
  match r with
  | FR_OK => true
  | _ => false
  end.

End FatFs.

Import FatFs.

(** What the outside answers: the allocator behind [makeROMImage], the
    successive answers of [f_findfirst]/[f_findnext] for a directory,
    whether a path can be opened, and what the validator makes of the
    file at a path.  [FF_LFN_BUF] is the constant of ffconf.h, outside
    the sources, that sizes the path buffer of [ScanROMs].  [overrun]
    is the state the program is left in by a [strcpy] that writes past
    the end of that buffer: C++ leaves it undefined, so it is for the
    environment to choose. *)
Record Env := {
  alloc : gset addr -> addr;
  alloc_fresh : forall X, alloc X ∉ X;
  f_find : string -> list (FRESULT * FILINFO);
  FileStream_open : string -> bool;
  identify : string -> option ROMInfo;
  FF_LFN_BUF : nat;
  overrun : FILINFO -> State -> State
}.

Definition M (A : Type) : Type := State -> A * State.

#[global] Instance M_ret : MRet M := fun A x s => (x, s).
#[global] Instance M_bind : MBind M :=
  fun A B f m s => let (x, s') := m s in f x s'.

Definition emit (e : Event) : M unit :=
  fun s => (tt, {| self := self s; heap := heap s; trace := trace s ++ [e] |}).

Definition get_self : M CROMManager := fun s => (self s, s).

(** [file->open(pPath)] on a new [FileStream]. *)
Definition open (E : Env) (pPath : string) : M bool :=
  emit (EvOpen pPath (FileStream_open E pPath));;
  mret (FileStream_open E pPath).

(** [MT32Emu::ROMImage::makeROMImage(file)]: a new image, at an address
    that no allocated image has. *)
Definition makeROMImage (E : Env) (pPath : string) : M ROMImage :=
  fun s =>
    let a := alloc E (heap s) in
    ({| addressOf := a; getROMInfo := identify E pPath |},
     {| self := self s; heap := {[a]} ∪ heap s;
        trace := trace s ++ [EvMakeROMImage a] |}).

(** [MT32Emu::ROMImage::freeROMImage(rom)]. *)
Definition freeROMImage (a : addr) : M unit :=
  fun s =>
    (tt, {| self := self s; heap := heap s ∖ {[a]};
            trace := trace s ++ [EvFreeROMImage a] |}).

(** A method of the manager that touches nothing else. *)
Definition on_self {A} (f : CROMManager -> A * CROMManager) : M A :=
  fun s =>
    let (x, this) := f (self s) in
    (x, {| self := this; heap := heap s; trace := trace s |}).

Definition ROMPath : string := "roms".
Definition MT32ControlROMName : string := "MT32_CONTROL.ROM".
Definition MT32PCMROMName : string := "MT32_PCM.ROM".

(** [CROMManager::CheckROM]. *)
Definition CheckROM (E : Env) (pPath : string) : M bool :=
  opened ← open E pPath;
  if negb opened then
    emit (EvLogError pPath);;
    emit (EvDeleteFile pPath);;
    mret false
  else
    rom ← makeROMImage E pPath;
    stored ← on_self (StoreROM rom);
    if negb stored then
      freeROMImage (addressOf rom);;
      emit (EvDeleteFile pPath);;
      mret false
    else
      mret true.

(** [sizeof(ROMPath)]: the characters of [ROMPath] and its
    terminator. *)
Definition sizeof_ROMPath : nat := String.length ROMPath + 1.

(** Whether [strcpy(path + sizeof(ROMPath), fileInfo.fname)] stays
    inside [char path[sizeof(ROMPath) + FF_LFN_BUF]]: it writes the
    name and its terminator from index [sizeof(ROMPath)] on. *)
Definition fits (E : Env) (fileInfo : FILINFO) : bool :=
  Nat.leb (sizeof_ROMPath + (String.length (fname fileInfo) + 1))
    (sizeof_ROMPath + FF_LFN_BUF E).

(** The [while] loop of [ScanROMs], over the answers the enumerator
    gives: the head is the answer in [result] and [fileInfo] when the
    condition is tested, the tail what [f_findnext] answers next.  A
    directory that is exhausted answers [FR_OK] with an empty name;
    so does the end of the list.  When the name of a file does not fit
    the path buffer the [strcpy] writes past its end, and the walk ends
    in the state [overrun] gives. *)
Fixpoint ScanROMs_loop (E : Env) (answers : list (FRESULT * FILINFO)) : M unit :=
  match answers with
  | [] => mret tt
  | (result, fileInfo) :: rest =>
      if is_FR_OK result && negb (String.eqb (fname fileInfo) "") then
        if N.eqb (N.land (fattrib fileInfo) (N.lor AM_DIR (N.lor AM_HID AM_SYS))) 0
        then
          if fits E fileInfo then
            CheckROM E (ROMPath +:+ "/" +:+ fname fileInfo);;
            ScanROMs_loop E rest
          else
            fun s => (tt, overrun E fileInfo s)
        else ScanROMs_loop E rest
      else mret tt
  end.

(** Whether every [strcpy] of the loop stays inside the path buffer. *)
Fixpoint in_bounds (E : Env) (answers : list (FRESULT * FILINFO)) : bool :=
  match answers with
  | [] => true
  | (result, fileInfo) :: rest =>
      if is_FR_OK result && negb (String.eqb (fname fileInfo) "") then
        (if N.eqb (N.land (fattrib fileInfo) (N.lor AM_DIR (N.lor AM_HID AM_SYS))) 0
         then fits E fileInfo
         else true)
        && in_bounds E rest
      else true
  end.

(** The names of the ROM directory that the walk copies fit the path
    buffer: the behaviour of [ScanROMs] is defined. *)
Definition names_fit (E : Env) : bool := in_bounds E (f_find E ROMPath).

(** [CROMManager::ScanROMs]. *)
Definition ScanROMs (E : Env) : M bool :=
  ScanROMs_loop E (f_find E ROMPath);;
  this ← get_self;
  if negb (HaveROMSet this Any) then
    control ← CheckROM E MT32ControlROMName;
    if control : bool then CheckROM E MT32PCMROMName else mret false
  else
    mret true.

(** The array [roms] of the destructor. *)
Definition roms : list Slot :=
  [AtMT32OldControl; AtMT32NewControl; AtCM32LControl; AtMT32PCM; AtCM32LPCM].

Fixpoint free_each (l : list Slot) : M unit :=
  match l with
  | [] => mret tt
  | rom :: rest =>
      this ← get_self;
      (match load rom this with
       | Some a => freeROMImage a
       | None => mret tt
       end : M unit);;
      free_each rest
  end.

(** [CROMManager::~CROMManager]. *)
Definition CROMManager_delete : M unit := free_each roms.

(** ** Invariant of the store *)

(** The images the manager points at, one entry per filled member, in
    the order of [roms]. *)
Definition images (this : CROMManager) : list addr :=
  omap (fun rom => load rom this) roms.

(** What every state built by the constructor and the mutating methods
    satisfies: no image sits in two members, and every image a member
    points at is allocated. *)
Definition store_inv (s : State) : Prop :=
  NoDup (images (self s)) /\ Forall (fun a => a ∈ heap s) (images (self s)).

#[global] Instance store_inv_dec s : Decision (store_inv s).
Proof. unfold store_inv. apply _. Defined.

(** The states the program gets into: the constructor leaves all
    members empty, whatever is allocated elsewhere; the members change
    only through [CheckROM] and [ScanROMs] ([StoreROM] is called by
    [CheckROM] alone), [ScanROMs] on a ROM directory whose names fit
    the path buffer; the rest of the program allocates and releases
    images of its own and calls the collaborators, but does not release
    an image that the manager holds. *)
Inductive reachable : State -> Prop :=
  | reachable_new FileSystem h t :
      reachable {| self := CROMManager_new FileSystem; heap := h; trace := t |}
  | reachable_CheckROM E pPath s :
      reachable s -> reachable (CheckROM E pPath s).2
  | reachable_ScanROMs E s :
      names_fit E = true ->
      reachable s -> reachable (ScanROMs E s).2
  | reachable_elsewhere s h t :
      reachable s ->
      Forall (fun a => a ∈ h) (images (self s)) ->
      reachable {| self := self s; heap := h; trace := t |}.

(** The paths [open] was called with, oldest first: one per call of
    [CheckROM]. *)
Fixpoint opens (t : list Event) : list string :=
  match t with
  | [] => []
  | EvOpen pPath _ :: t => pPath :: opens t
  | _ :: t => opens t
  end.

(** The addresses [freeROMImage] was called with, oldest first. *)
Fixpoint released (t : list Event) : list addr :=
  match t with
  | [] => []
  | EvFreeROMImage a :: t => a :: released t
  | _ :: t => released t
  end.

#[global] Instance Slot_eq_dec : EqDecision Slot.
Proof. solve_decision. Defined.

(** Handing an image to one member: refused when the member is filled,
    stored there otherwise. *)
Definition store_into (target : Slot) (ROMImage : ROMImage)
    (this : CROMManager) : bool * CROMManager :=
  match load target this with
  | Some _ => (false, this)
  | None => (true, store target (Some (addressOf ROMImage)) this)
  end.

(** The state in which the [while] loop of [ScanROMs] ends. *)
Definition walk (E : Env) (s : State) : State :=
  (ScanROMs_loop E (f_find E ROMPath) s).2.

(** The mutating methods, as calls made one after the other. *)
Inductive Call :=
  | CallStoreROM (ROMImage : ROMImage)
  | CallCheckROM (E : Env) (pPath : string)
  | CallScanROMs (E : Env).

Definition call (c : Call) (s : State) : State :=
  match c with
  | CallStoreROM ROMImage => (on_self (StoreROM ROMImage) s).2
  | CallCheckROM E pPath => (CheckROM E pPath s).2
  | CallScanROMs E => (ScanROMs E s).2
  end.

Definition run (calls : list Call) (s : State) : State :=
  foldl (fun s c => call c s) s calls.

(** A call whose behaviour is defined: a [ScanROMs] on a ROM directory
    whose names fit the path buffer, or any call of the other two. *)
Definition defined_call (c : Call) : bool :=
  match c with
  | CallScanROMs E => names_fit E
  | _ => true
  end.

(** How often [a] occurs in [l]. *)
Definition times (a : addr) (l : list addr) : nat := length (filter (eq a) l).

(** A machine whose allocator hands out the least free address, whose
    ROM directory answers [listing] and whose volume holds [files]: a
    path opens when it is bound, and its value is what the validator
    makes of the file.  Long file names are 255 characters at most, and
    a write past the path buffer leaves every member of the manager
    null. *)
Definition machine (listing : list (FRESULT * FILINFO))
    (files : gmap string (option ROMInfo)) : Env :=
  {| alloc := fresh;
     alloc_fresh := is_fresh;
     f_find := fun _ => listing;
     FileStream_open := fun pPath => bool_decide (is_Some (files !! pPath));
     identify := fun pPath => default None (files !! pPath);
     FF_LFN_BUF := 255;
     overrun := fun _ s =>
       {| self := CROMManager_new (mFileSystem (self s));
          heap := heap s; trace := trace s |} |}.

(** The state right after construction. *)
Definition power_on : State :=
  {| self := CROMManager_new 1%positive; heap := ∅; trace := [] |}.

(** No ROM directory; of the two legacy files only the PCM one. *)
Definition pcm_only : Env :=
  machine [(FR_NO_PATH, {| fname := ""; fattrib := 0 |})]
    {[ "MT32_PCM.ROM" := Some {| type := PCM; shortName := "pcm_mt32" |} ]}.

(** A ROM directory with an old MT-32 control ROM, a subdirectory, a
    file that is no ROM and a CM-32L PCM ROM. *)
Definition old_control_cm32l_pcm : Env :=
  machine
    [(FR_OK, {| fname := "a.rom"; fattrib := 32 |});
     (FR_OK, {| fname := "sub"; fattrib := 16 |});
     (FR_OK, {| fname := "readme.txt"; fattrib := 0 |});
     (FR_OK, {| fname := "b.rom"; fattrib := 0 |});
     (FR_OK, {| fname := ""; fattrib := 0 |})]
    (list_to_map
       [("roms/a.rom", Some {| type := Control; shortName := "ctrl_mt32_1_07" |});
        ("roms/readme.txt", None);
        ("roms/b.rom", Some {| type := PCM; shortName := "pcm_cm32l" |})]).

(** C4 as the spec words it: when the walk leaves no complete set,
    both legacy names are tried, each once. *)
Definition fallback_tries_both (E : Env) (s : State) : Prop :=
  HaveROMSet (self (walk E s)) Any = false ->
  opens (trace (ScanROMs E s).2)
  = opens (trace (walk E s)) ++ [MT32ControlROMName; MT32PCMROMName].

(** The entries the [while] loop of [ScanROMs] gets to test and pass:
    those before the first answer that is an error or carries an empty
    name. *)
Fixpoint visited (answers : list (FRESULT * FILINFO)) : list FILINFO :=
  match answers with
  | [] => []
  | (result, fileInfo) :: rest =>
      if is_FR_OK result && negb (String.eqb (fname fileInfo) "")
      then fileInfo :: visited rest
      else []
  end.

(** An entry with none of the hidden (bit 1), system (bit 2) and
    directory (bit 4) attributes. *)
Definition plain_file (fileInfo : FILINFO) : bool :=
  negb (N.testbit (fattrib fileInfo) 1)
  && negb (N.testbit (fattrib fileInfo) 2)
  && negb (N.testbit (fattrib fileInfo) 4).

(** The path of an entry of the ROM directory. *)
Definition path_of (fileInfo : FILINFO) : string :=
  ROMPath +:+ "/" +:+ fname fileInfo.

(** The members for control images and those for PCM images. *)
Definition control_member (rom : Slot) : bool :=
  match rom with
  | AtMT32OldControl | AtMT32NewControl | AtCM32LControl => true
  | AtMT32PCM | AtCM32LPCM => false
  end.

(** The image [CheckROM] makes for a path, from a state with the
    allocated set [h]. *)
Definition image_at (E : Env) (pPath : string) (h : gset addr) : ROMImage :=
  {| addressOf := alloc E h; getROMInfo := identify E pPath |}.

(** A path is settled in a manager when [CheckROM] has no member left
    to fill from it: it does not open, or its descriptor has no target
    member, or the target member is filled. *)
Definition settled (E : Env) (pPath : string) (this : CROMManager) : Prop :=
  FileStream_open E pPath = true ->
  forall romInfo target,
    identify E pPath = Some romInfo -> romPtr romInfo = Some target ->
    is_Some (load target this).

(** The member a descriptor is destined for, if any. *)
Definition target_of (ROMImage : ROMImage) : option Slot :=
  match getROMInfo ROMImage with
  | Some romInfo => romPtr romInfo
  | None => None
  end.

(** The state [s'] comes from [s] without a leak: what is allocated in
    [s'] is what was allocated in [s] together with the images the
    manager holds; the manager holds every image it held; and an image
    it did not hold before is one that was not allocated before. *)
Definition extends (s s' : State) : Prop :=
  heap s' = heap s ∪ list_to_set (images (self s'))
  /\ (forall a, a ∈ images (self s) -> a ∈ images (self s'))
  /\ (forall a, a ∈ images (self s') ->
        a ∈ images (self s) \/ a ∉ heap s).

(** The file at a path offers an image for a member: it opens, the
    validator recognises it, and its descriptor is destined for that
    member. *)
Definition offers (E : Env) (pPath : string) (target : Slot) : Prop :=
  FileStream_open E pPath = true
  /\ exists romInfo,
       identify E pPath = Some romInfo /\ romPtr romInfo = Some target.

(** The paths the walk of [ScanROMs] hands to [CheckROM]. *)
Definition candidates (E : Env) : list string :=
  map path_of (List.filter plain_file (visited (f_find E ROMPath))).

(** A ROM directory with one plain file whose name has 255 characters,
    the longest a long file name gets. *)
Definition longest_name : string :=
  string_of_list_ascii (repeat "a"%char 255).

Definition longest_name_volume : Env :=
  machine [(FR_OK, {| fname := longest_name; fattrib := 32 |})] ∅.

(** * Properties *)

(** ** Queries *)

Lemma nonnull_is_Some (p : ptr) : nonnull p = true <-> is_Some p.
Proof.
  destruct p as [a|]; simpl.
  - split; [eauto | done].
  - split; [done | by intros [? ?]].
Qed.

Lemma nonnull_None (p : ptr) : nonnull p = false <-> p = nullptr.
Proof. destruct p; simpl; split; congruence. Qed.

Lemma ptr_eqb_eq (p q : ptr) : ptr_eqb p q = true <-> p = q.
Proof. unfold ptr_eqb. by rewrite bool_decide_eq_true. Qed.

(** The control image [GetROMSet(Any)] picks. *)
Lemma GetROMSet_Any_outControl this c0 p0 :
  HaveROMSet this Any = true ->
  outControl (GetROMSet this Any c0 p0) =
    match mMT32OldControl this, mMT32NewControl this with
    | Some a, _ => Some a
    | None, Some b => Some b
    | None, None => mCM32LControl this
    end.
Proof.
  intros H. unfold GetROMSet. rewrite H. simpl.
  by destruct (mMT32OldControl this), (mMT32NewControl this).
Qed.

Lemma images_unfold this :
  images this =
    option_list (mMT32OldControl this) ++ option_list (mMT32NewControl this)
    ++ option_list (mCM32LControl this) ++ option_list (mMT32PCM this)
    ++ option_list (mCM32LPCM this).
Proof.
  unfold images. simpl.
  by destruct (mMT32OldControl this), (mMT32NewControl this),
    (mCM32LControl this), (mMT32PCM this), (mCM32LPCM this).
Qed.

Lemma elem_of_images this a :
  a ∈ images this <-> exists rom, load rom this = Some a.
Proof.
  unfold images. rewrite list_elem_of_omap. split.
  - intros (rom & _ & H). eauto.
  - intros [rom H]. exists rom. split; [| done].
    unfold roms. destruct rom; set_solver.
Qed.

(** Two different members of a store without aliasing never hold the
    same image. *)
Lemma NoDup_images_load this rom1 rom2 a :
  NoDup (images this) ->
  load rom1 this = Some a -> load rom2 this = Some a -> rom1 = rom2.
Proof.
  rewrite images_unfold. destruct this as [fs o n c p l]. simpl.
  intros Hnd H1 H2.
  destruct rom1, rom2; try reflexivity; simpl in H1, H2; subst; exfalso;
    simpl in Hnd;
    repeat match goal with
    | H : context [option_list ?o] |- _ => destruct o; simpl in H
    end;
    repeat match goal with
    | H : NoDup (_ :: _) |- _ => apply NoDup_cons in H; destruct H
    end; set_solver.
Qed.

(** What [HaveROMSet] tests, kind by kind. *)
Lemma HaveROMSet_true this ROMSet :
  HaveROMSet this ROMSet = true <->
    match ROMSet with
    | Any =>
        (is_Some (mMT32OldControl this) \/ is_Some (mMT32NewControl this)
         \/ is_Some (mCM32LControl this))
        /\ (is_Some (mMT32PCM this) \/ is_Some (mCM32LPCM this))
    | MT32Old => is_Some (mMT32OldControl this) /\ is_Some (mMT32PCM this)
    | MT32New => is_Some (mMT32NewControl this) /\ is_Some (mMT32PCM this)
    | CM32L => is_Some (mCM32LControl this) /\ is_Some (mCM32LPCM this)
    end.
Proof.
  destruct ROMSet; unfold HaveROMSet;
    rewrite !andb_true_iff, ?orb_true_iff, !nonnull_is_Some; tauto.
Qed.

Lemma GetROMSet_ok this ROMSet c0 p0 :
  ok (GetROMSet this ROMSet c0 p0) = HaveROMSet this ROMSet.
Proof.
  unfold GetROMSet.
  destruct (HaveROMSet this ROMSet) eqn:H; simpl; [| reflexivity].
  by destruct ROMSet.
Qed.

(** The PCM image [GetROMSet(Any)] picks. *)
Lemma GetROMSet_Any_outPCM this c0 p0 :
  HaveROMSet this Any = true ->
  outPCM (GetROMSet this Any c0 p0) =
    if ptr_eqb (outControl (GetROMSet this Any c0 p0)) (mCM32LControl this)
       && nonnull (mCM32LPCM this)
    then mCM32LPCM this else mMT32PCM this.
Proof. intros H. unfold GetROMSet. rewrite H. reflexivity. Qed.

(** The outputs of [GetROMSet] for the named kinds. *)
Lemma GetROMSet_named_out this ROMSet c0 p0 :
  HaveROMSet this ROMSet = true ->
  match ROMSet with
  | Any => True
  | MT32Old =>
      outControl (GetROMSet this ROMSet c0 p0) = mMT32OldControl this
      /\ outPCM (GetROMSet this ROMSet c0 p0) = mMT32PCM this
  | MT32New =>
      outControl (GetROMSet this ROMSet c0 p0) = mMT32NewControl this
      /\ outPCM (GetROMSet this ROMSet c0 p0) = mMT32PCM this
  | CM32L =>
      outControl (GetROMSet this ROMSet c0 p0) = mCM32LControl this
      /\ outPCM (GetROMSet this ROMSet c0 p0) = mCM32LPCM this
  end.
Proof. intros H. unfold GetROMSet. rewrite H. by destruct ROMSet. Qed.

(** With an MT32 control member filled and no image in two members,
    the control picked is not the CM32L one and the PCM picked is the
    MT32 PCM member. *)
Lemma GetROMSet_Any_MT32_control this c0 p0 :
  HaveROMSet this Any = true ->
  NoDup (images this) ->
  is_Some (mMT32OldControl this) \/ is_Some (mMT32NewControl this) ->
  outControl (GetROMSet this Any c0 p0) <> mCM32LControl this
  /\ outPCM (GetROMSet this Any c0 p0) = mMT32PCM this.
Proof.
  intros H Hnd Hmt.
  assert (Hne : outControl (GetROMSet this Any c0 p0) <> mCM32LControl this).
  { rewrite (GetROMSet_Any_outControl this c0 p0 H). intros He.
    destruct (mMT32OldControl this) as [a|] eqn:Ho.
    - pose proof (NoDup_images_load this AtMT32OldControl AtCM32LControl a
                    Hnd Ho (eq_sym He)). done.
    - destruct (mMT32NewControl this) as [b|] eqn:Hn.
      + pose proof (NoDup_images_load this AtMT32NewControl AtCM32LControl b
                      Hnd Hn (eq_sym He)). done.
      + destruct Hmt as [[? ?]|[? ?]]; done. }
  split; [exact Hne |].
  rewrite (GetROMSet_Any_outPCM this c0 p0 H).
  destruct (ptr_eqb _ _) eqn:Hb; [| reflexivity].
  by apply ptr_eqb_eq in Hb.
Qed.

(** C2.  [HaveROMSet(Any)] is true exactly when one of the three control
    members and one of the two PCM members is filled, and false in
    every other combination. *)
Theorem HaveROMSet_Any_iff this :
  HaveROMSet this Any = true <->
    (is_Some (mMT32OldControl this) \/ is_Some (mMT32NewControl this)
     \/ is_Some (mCM32LControl this))
    /\ (is_Some (mMT32PCM this) \/ is_Some (mCM32LPCM this)).
Proof.
  unfold HaveROMSet.
  rewrite andb_true_iff, !orb_true_iff, !nonnull_is_Some. tauto.
Qed.

(** C3.  When [HaveROMSet(Any)] holds, [GetROMSet(Any)] succeeds and
    its control output is the MT32-old control image if that member is
    filled, else the MT32-new control image if that member is filled,
    else the CM32L control image. *)
Theorem GetROMSet_Any_control_priority this c0 p0 :
  HaveROMSet this Any = true ->
  ok (GetROMSet this Any c0 p0) = true
  /\ (is_Some (mMT32OldControl this) ->
      outControl (GetROMSet this Any c0 p0) = mMT32OldControl this)
  /\ (mMT32OldControl this = nullptr -> is_Some (mMT32NewControl this) ->
      outControl (GetROMSet this Any c0 p0) = mMT32NewControl this)
  /\ (mMT32OldControl this = nullptr -> mMT32NewControl this = nullptr ->
      outControl (GetROMSet this Any c0 p0) = mCM32LControl this
      /\ is_Some (mCM32LControl this)).
Proof.
  intros H. rewrite (GetROMSet_Any_outControl _ _ _ H).
  split; [by unfold GetROMSet; rewrite H |].
  apply (HaveROMSet_true this Any) in H. destruct H as [Hc _].
  split; [| split].
  - by intros [a ->].
  - by intros -> [b ->].
  - intros Ho Hn. rewrite Ho, Hn in *. split; [done |].
    destruct Hc as [[? ?]|[[? ?]|?]]; done.
Qed.

Lemma GetROMSet_Any_control_priority_witness :
  let this := {| mFileSystem := 1%positive; mMT32OldControl := nullptr;
                 mMT32NewControl := Some 2%positive;
                 mCM32LControl := Some 3%positive;
                 mMT32PCM := Some 4%positive; mCM32LPCM := nullptr |} in
  HaveROMSet this Any = true
  /\ outControl (GetROMSet this Any nullptr nullptr) = Some 2%positive.
Proof.
  intros this. split; [reflexivity |].
  destruct (GetROMSet_Any_control_priority this nullptr nullptr)
    as (_ & _ & H & _); [reflexivity |].
  apply H; [reflexivity | by exists 2%positive].
Defined.

(** C7.  [GetROMSet] returns exactly what [HaveROMSet] says of the same
    kind.  When the set is missing it returns [false] and writes
    neither output; when it returns [true] for one of the three named
    kinds, the outputs are that kind's control member and PCM member,
    both filled. *)
Theorem GetROMSet_fails_unless_HaveROMSet this ROMSet c0 p0 :
  ok (GetROMSet this ROMSet c0 p0) = HaveROMSet this ROMSet
  /\ (HaveROMSet this ROMSet = false ->
      GetROMSet this ROMSet c0 p0
      = {| ok := false; outControl := c0; outPCM := p0 |})
  /\ (HaveROMSet this ROMSet = true ->
      match ROMSet with
      | Any => True
      | MT32Old =>
          outControl (GetROMSet this ROMSet c0 p0) = mMT32OldControl this
          /\ outPCM (GetROMSet this ROMSet c0 p0) = mMT32PCM this
          /\ is_Some (mMT32OldControl this) /\ is_Some (mMT32PCM this)
      | MT32New =>
          outControl (GetROMSet this ROMSet c0 p0) = mMT32NewControl this
          /\ outPCM (GetROMSet this ROMSet c0 p0) = mMT32PCM this
          /\ is_Some (mMT32NewControl this) /\ is_Some (mMT32PCM this)
      | CM32L =>
          outControl (GetROMSet this ROMSet c0 p0) = mCM32LControl this
          /\ outPCM (GetROMSet this ROMSet c0 p0) = mCM32LPCM this
          /\ is_Some (mCM32LControl this) /\ is_Some (mCM32LPCM this)
      end).
Proof.
  split; [| split].
  - unfold GetROMSet.
    destruct (HaveROMSet this ROMSet) eqn:H; simpl; [| reflexivity].
    by destruct ROMSet.
  - intros H. unfold GetROMSet. by rewrite H.
  - intros H. unfold GetROMSet. rewrite H. simpl.
    destruct ROMSet; [done | ..]; simpl in H;
      apply andb_true_iff in H as [H1 H2];
      apply nonnull_is_Some in H1, H2; done.
Qed.

Lemma GetROMSet_fails_unless_HaveROMSet_witness :
  let this := {| mFileSystem := 1%positive;
                 mMT32OldControl := Some 2%positive;
                 mMT32NewControl := nullptr;
                 mCM32LControl := Some 3%positive;
                 mMT32PCM := nullptr; mCM32LPCM := Some 4%positive |} in
  (HaveROMSet this MT32Old = false
   /\ GetROMSet this MT32Old (Some 8%positive) (Some 9%positive)
      = {| ok := false; outControl := Some 8%positive;
           outPCM := Some 9%positive |})
  /\ (HaveROMSet this CM32L = true
      /\ outControl (GetROMSet this CM32L nullptr nullptr) = Some 3%positive
      /\ outPCM (GetROMSet this CM32L nullptr nullptr) = Some 4%positive).
Proof.
  intros this. split.
  - split; [reflexivity |].
    apply (GetROMSet_fails_unless_HaveROMSet this MT32Old). reflexivity.
  - split; [reflexivity |].
    destruct (GetROMSet_fails_unless_HaveROMSet this CM32L nullptr nullptr)
      as (_ & _ & H).
    destruct H as (Hc & Hp & _); [reflexivity |]. by rewrite Hc, Hp.
Defined.

(** C1.  When [HaveROMSet(Any)] holds, the PCM output of
    [GetROMSet(Any)] follows the asymmetric rule: it is the CM32L PCM
    image if the chosen control is the image in the CM32L control
    member and the CM32L PCM member is filled, and the image of the
    MT32 PCM member in every other case.  In a store where no image
    sits in two members (every state the program gets into,
    [reachable_store_inv]), whenever an MT32-old or MT32-new control
    member is filled the chosen control is not the CM32L one and the
    PCM output is the MT32 PCM member, never the CM32L PCM image. *)
Theorem GetROMSet_Any_PCM_rule this c0 p0 :
  HaveROMSet this Any = true ->
  ok (GetROMSet this Any c0 p0) = true
  /\ (outControl (GetROMSet this Any c0 p0) = mCM32LControl this ->
      is_Some (mCM32LPCM this) ->
      outPCM (GetROMSet this Any c0 p0) = mCM32LPCM this)
  /\ (~ (outControl (GetROMSet this Any c0 p0) = mCM32LControl this
         /\ is_Some (mCM32LPCM this)) ->
      outPCM (GetROMSet this Any c0 p0) = mMT32PCM this)
  /\ (NoDup (images this) ->
      is_Some (mMT32OldControl this) \/ is_Some (mMT32NewControl this) ->
      outControl (GetROMSet this Any c0 p0) <> mCM32LControl this
      /\ outPCM (GetROMSet this Any c0 p0) = mMT32PCM this
      /\ (is_Some (mCM32LPCM this) ->
          outPCM (GetROMSet this Any c0 p0) <> mCM32LPCM this)).
Proof.
  intros H.
  pose proof (GetROMSet_Any_outControl this c0 p0 H) as Hctl.
  assert (Hpcm : outPCM (GetROMSet this Any c0 p0) =
                 if ptr_eqb (outControl (GetROMSet this Any c0 p0))
                      (mCM32LControl this) && nonnull (mCM32LPCM this)
                 then mCM32LPCM this else mMT32PCM this).
  { unfold GetROMSet. rewrite H. reflexivity. }
  assert (Hrule2 :
    ~ (outControl (GetROMSet this Any c0 p0) = mCM32LControl this
       /\ is_Some (mCM32LPCM this)) ->
    outPCM (GetROMSet this Any c0 p0) = mMT32PCM this).
  { intros Hn. rewrite Hpcm.
    destruct (ptr_eqb _ _ && _) eqn:Hb; [| reflexivity].
    apply andb_true_iff in Hb as [Hb1 Hb2].
    apply ptr_eqb_eq in Hb1. apply nonnull_is_Some in Hb2. tauto. }
  split; [by unfold GetROMSet; rewrite H |].
  split; [| split]; [| exact Hrule2 |].
  - intros He Hl. rewrite Hpcm.
    apply ptr_eqb_eq in He. apply nonnull_is_Some in Hl.
    by rewrite He, Hl.
  - intros Hnd Hmt.
    assert (Hne : outControl (GetROMSet this Any c0 p0) <> mCM32LControl this).
    { rewrite Hctl. intros He.
      destruct (mMT32OldControl this) as [a|] eqn:Ho.
      - pose proof (NoDup_images_load this AtMT32OldControl AtCM32LControl a
                      Hnd Ho (eq_sym He)). done.
      - destruct (mMT32NewControl this) as [b|] eqn:Hn.
        + pose proof (NoDup_images_load this AtMT32NewControl AtCM32LControl b
                        Hnd Hn (eq_sym He)). done.
        + destruct Hmt as [[? ?]|[? ?]]; done. }
    assert (Hp : outPCM (GetROMSet this Any c0 p0) = mMT32PCM this)
      by (apply Hrule2; tauto).
    split; [exact Hne |]. split; [exact Hp |].
    intros [l Hl]. rewrite Hp, Hl. intros Hm.
    pose proof (NoDup_images_load this AtMT32PCM AtCM32LPCM l Hnd Hm Hl).
    done.
Qed.

Lemma GetROMSet_Any_PCM_rule_witness :
  let this := {| mFileSystem := 1%positive;
                 mMT32OldControl := nullptr;
                 mMT32NewControl := Some 2%positive;
                 mCM32LControl := Some 3%positive;
                 mMT32PCM := Some 4%positive;
                 mCM32LPCM := Some 5%positive |} in
  HaveROMSet this Any = true
  /\ NoDup (images this)
  /\ outPCM (GetROMSet this Any nullptr nullptr) = Some 4%positive.
Proof.
  intros this.
  assert (Hnd : NoDup (images this)).
  { compute_done. }
  split; [reflexivity |]. split; [exact Hnd |].
  destruct (GetROMSet_Any_PCM_rule this nullptr nullptr)
    as (_ & _ & _ & H); [reflexivity |].
  destruct H as (_ & Hp & _); [exact Hnd | right; by exists 2%positive |].
  exact Hp.
Defined.

(** C9.  In a store where no image sits in two members (every state
    the program gets into, [reachable_store_inv]), an MT32-old or
    MT32-new control member is filled, the MT32 PCM member is empty and
    the CM32L PCM member is filled, [HaveROMSet(Any)] holds and
    [GetROMSet(Any)] returns [true] with that MT32 control and with the
    empty MT32 PCM member, [nullptr], as PCM output: success together
    with no PCM image. *)
Theorem GetROMSet_Any_succeeds_with_null_PCM this c0 p0 :
  NoDup (images this) ->
  is_Some (mMT32OldControl this) \/ is_Some (mMT32NewControl this) ->
  mMT32PCM this = nullptr ->
  is_Some (mCM32LPCM this) ->
  HaveROMSet this Any = true
  /\ ok (GetROMSet this Any c0 p0) = true
  /\ is_Some (outControl (GetROMSet this Any c0 p0))
  /\ outControl (GetROMSet this Any c0 p0) <> mCM32LControl this
  /\ outPCM (GetROMSet this Any c0 p0) = nullptr.
Proof.
  intros Hnd Hmt Hpcm Hl.
  assert (H : HaveROMSet this Any = true).
  { apply (HaveROMSet_true this Any). split; [tauto | by right]. }
  destruct (GetROMSet_Any_MT32_control this c0 p0 H Hnd Hmt) as (Hne & Hp).
  split; [exact H |]. split; [by rewrite GetROMSet_ok |].
  split; [| split; [exact Hne | by rewrite Hp]].
  rewrite (GetROMSet_Any_outControl this c0 p0 H).
  destruct (mMT32OldControl this); [by eexists |].
  destruct (mMT32NewControl this); [by eexists |].
  destruct Hmt as [[? ?]|[? ?]]; done.
Qed.

Lemma GetROMSet_Any_succeeds_with_null_PCM_witness :
  let this := {| mFileSystem := 1%positive;
                 mMT32OldControl := Some 1%positive;
                 mMT32NewControl := nullptr;
                 mCM32LControl := nullptr;
                 mMT32PCM := nullptr;
                 mCM32LPCM := Some 2%positive |} in
  NoDup (images this)
  /\ ok (GetROMSet this Any (Some 7%positive) (Some 7%positive)) = true
  /\ outPCM (GetROMSet this Any (Some 7%positive) (Some 7%positive))
     = nullptr.
Proof.
  intros this.
  assert (Hnd : NoDup (images this)).
  { compute_done. }
  split; [exact Hnd |].
  destruct (GetROMSet_Any_succeeds_with_null_PCM this
              (Some 7%positive) (Some 7%positive))
    as (_ & Hok & _ & _ & Hp);
    [exact Hnd | left; by exists 1%positive | reflexivity
    | by exists 2%positive |].
  split; [exact Hok | exact Hp].
Defined.

(** ** StoreROM *)

Lemma load_store_eq target v this : load target (store target v this) = v.
Proof. by destruct target. Qed.

Lemma load_store_ne target rom v this :
  rom <> target -> load rom (store target v this) = load rom this.
Proof. by destruct target, rom. Qed.

Lemma StoreROM_store_into ROMImage this romInfo target :
  getROMInfo ROMImage = Some romInfo ->
  romPtr romInfo = Some target ->
  StoreROM ROMImage this = store_into target ROMImage this.
Proof.
  intros Hi Hp. unfold StoreROM, store_into. rewrite Hi, Hp.
  by destruct (load target this).
Qed.

(** The two ways a call of [StoreROM] ends. *)
Lemma StoreROM_cases ROMImage this :
  StoreROM ROMImage this = (false, this)
  \/ exists target,
       load target this = nullptr
       /\ StoreROM ROMImage this
          = (true, store target (Some (addressOf ROMImage)) this).
Proof.
  unfold StoreROM.
  destruct (getROMInfo ROMImage) as [romInfo|]; [| by left].
  destruct (romPtr romInfo) as [target|]; [| by left].
  destruct (load target this) eqn:Hl; simpl; [by left |].
  right. by exists target.
Qed.

Lemma StoreROM_false ROMImage this this' :
  StoreROM ROMImage this = (false, this') -> this' = this.
Proof.
  destruct (StoreROM_cases ROMImage this) as [H|(target & _ & H)];
    rewrite H; congruence.
Qed.

(** Every member is the target of some descriptor. *)
Lemma romPtr_onto target :
  exists romInfo, romPtr romInfo = Some target.
Proof.
  destruct target.
  - by exists {| type := Control; shortName := "ctrl_mt32_1_07" |}.
  - by exists {| type := Control; shortName := "ctrl_mt32_2_04" |}.
  - by exists {| type := Control; shortName := "ctrl_cm32l_1_02" |}.
  - by exists {| type := PCM; shortName := "pcm_mt32" |}.
  - by exists {| type := PCM; shortName := "pcm_cm32l" |}.
Qed.

(** C5.  Each of the five members is the target of some descriptor, and
    a descriptor whose target member is already filled is refused:
    [StoreROM] returns [false] and the manager is exactly as before, so
    no member points at the new image that did not before and every
    member keeps the image it held. *)
Theorem StoreROM_filled_slot_rejected ROMImage this romInfo target :
  getROMInfo ROMImage = Some romInfo ->
  romPtr romInfo = Some target ->
  is_Some (load target this) ->
  StoreROM ROMImage this = (false, this)
  /\ (forall rom, load rom (StoreROM ROMImage this).2 = load rom this)
  /\ (forall rom, exists romInfo', romPtr romInfo' = Some rom).
Proof.
  intros Hi Hp [a Ha].
  assert (H : StoreROM ROMImage this = (false, this)).
  { rewrite (StoreROM_store_into _ _ _ _ Hi Hp).
    unfold store_into. by rewrite Ha. }
  split; [exact H |]. split; [by rewrite H | apply romPtr_onto].
Qed.

Lemma StoreROM_filled_slot_rejected_witness :
  let this := {| mFileSystem := 1%positive;
                 mMT32OldControl := nullptr;
                 mMT32NewControl := nullptr;
                 mCM32LControl := nullptr;
                 mMT32PCM := Some 5%positive;
                 mCM32LPCM := nullptr |} in
  let romInfo := {| type := PCM; shortName := "pcm_mt32" |} in
  let ROMImage := {| addressOf := 6%positive; getROMInfo := Some romInfo |} in
  romPtr romInfo = Some AtMT32PCM
  /\ StoreROM ROMImage this = (false, this).
Proof.
  intros this romInfo ROMImage. split; [reflexivity |].
  apply (StoreROM_filled_slot_rejected ROMImage this romInfo AtMT32PCM);
    [reflexivity | reflexivity | by exists 5%positive].
Defined.

(** C6.  [StoreROM] refuses a descriptor that is not recognised or
    whose type is neither [Control] nor [PCM], leaving the manager as
    it was.  A [Control] descriptor goes to the MT32-old control member
    when character 10 of its short name is ['1'] or ['b'], to the
    MT32-new control member when it is ['2'], and to the CM32L control
    member for any other character; a [PCM] descriptor goes to the MT32
    PCM member when character 4 is ['m'] and to the CM32L PCM member
    for any other character.  Handing an image to a member changes no
    other member. *)
Theorem StoreROM_classification ROMImage this :
  (getROMInfo ROMImage = None -> StoreROM ROMImage this = (false, this))
  /\ (forall romInfo, getROMInfo ROMImage = Some romInfo ->
      match type romInfo with
      | Control =>
          let c := char_at (shortName romInfo) 10 in
          (c = "1"%char \/ c = "b"%char ->
           StoreROM ROMImage this = store_into AtMT32OldControl ROMImage this)
          /\ (c = "2"%char ->
              StoreROM ROMImage this
              = store_into AtMT32NewControl ROMImage this)
          /\ (c <> "1"%char -> c <> "b"%char -> c <> "2"%char ->
              StoreROM ROMImage this
              = store_into AtCM32LControl ROMImage this)
      | PCM =>
          let c := char_at (shortName romInfo) 4 in
          (c = "m"%char ->
           StoreROM ROMImage this = store_into AtMT32PCM ROMImage this)
          /\ (c <> "m"%char ->
              StoreROM ROMImage this = store_into AtCM32LPCM ROMImage this)
      | Other _ => StoreROM ROMImage this = (false, this)
      end)
  /\ (forall target rom, rom <> target ->
      load rom (store_into target ROMImage this).2 = load rom this).
Proof.
  split; [| split].
  - intros H. unfold StoreROM. by rewrite H.
  - intros romInfo Hi.
    destruct (type romInfo) eqn:Ht; simpl.
    + split; intros Hc; apply (StoreROM_store_into _ _ _ _ Hi);
        unfold romPtr; rewrite Ht; simpl.
      * by rewrite Hc.
      * apply Ascii.eqb_neq in Hc. by rewrite Hc.
    + split; [| split].
      * intros Hc. apply (StoreROM_store_into _ _ _ _ Hi).
        unfold romPtr. rewrite Ht. simpl. by destruct Hc as [-> | ->].
      * intros Hc. apply (StoreROM_store_into _ _ _ _ Hi).
        unfold romPtr. rewrite Ht. simpl. by rewrite Hc.
      * intros H1 Hb H2. apply (StoreROM_store_into _ _ _ _ Hi).
        unfold romPtr. rewrite Ht. simpl.
        apply Ascii.eqb_neq in H1, Hb, H2. by rewrite H1, Hb, H2.
    + unfold StoreROM, romPtr. by rewrite Hi, Ht.
  - intros target rom Hne. unfold store_into.
    destruct (load target this); simpl; [done |].
    by apply load_store_ne.
Qed.

Lemma StoreROM_classification_witness :
  let this := CROMManager_new 1%positive in
  let cm := {| addressOf := 2%positive;
               getROMInfo := Some {| type := Control;
                                     shortName := "ctrl_cm32l_1_02" |} |} in
  let junk := {| addressOf := 3%positive; getROMInfo := None |} in
  StoreROM junk this = (false, this)
  /\ StoreROM cm this = (true, store AtCM32LControl (Some 2%positive) this).
Proof.
  intros this cm junk.
  destruct (StoreROM_classification junk this) as (Hj & _ & _).
  destruct (StoreROM_classification cm this) as (_ & Hc & _).
  split; [by apply Hj |].
  destruct (Hc _ eq_refl) as (_ & _ & H). simpl in H.
  by rewrite H.
Defined.

(** ** CheckROM and the invariant *)

Lemma opens_app t1 t2 : opens (t1 ++ t2) = opens t1 ++ opens t2.
Proof.
  induction t1 as [|e t1 IH]; simpl; [reflexivity |].
  destruct e; simpl; by rewrite ?IH.
Qed.

Lemma released_app t1 t2 : released (t1 ++ t2) = released t1 ++ released t2.
Proof.
  induction t1 as [|e t1 IH]; simpl; [reflexivity |].
  destruct e; simpl; by rewrite ?IH.
Qed.

Lemma elem_of_images_store target a b this :
  load target this = nullptr ->
  b ∈ images (store target (Some a) this) <-> b = a \/ b ∈ images this.
Proof.
  intros Hl. rewrite !elem_of_images. split.
  - intros [rom H]. destruct (decide (rom = target)) as [->|Hne].
    + rewrite load_store_eq in H. left. congruence.
    + rewrite load_store_ne in H by done. right. eauto.
  - intros [->|[rom H]].
    + exists target. apply load_store_eq.
    + exists rom. rewrite load_store_ne; [done |].
      intros ->. congruence.
Qed.

Lemma omap_cons_list {A B} (f : A -> option B) x (l : list A) :
  omap f (x :: l) = option_list (f x) ++ omap f l.
Proof. simpl. by destruct (f x). Qed.

Lemma omap_agree (f g : Slot -> option addr) target (l : list Slot) :
  (forall rom, rom <> target -> g rom = f rom) ->
  target ∉ l -> omap g l = omap f l.
Proof.
  intros Hfg. induction l as [|x l IH]; intros Hn; [reflexivity |].
  apply not_elem_of_cons in Hn as [Hx Hl].
  rewrite !omap_cons_list, (Hfg x) by congruence. by rewrite IH.
Qed.

(** Filling one empty member adds one entry to the list of images. *)
Lemma omap_fill (f g : Slot -> option addr) target a (l : list Slot) :
  f target = None -> g target = Some a ->
  (forall rom, rom <> target -> g rom = f rom) ->
  NoDup l -> target ∈ l -> omap g l ≡ₚ a :: omap f l.
Proof.
  intros Hf Hg Hfg. induction l as [|x l IH]; intros Hnd Hin.
  - by apply elem_of_nil in Hin.
  - apply NoDup_cons in Hnd as [Hx Hnd]. rewrite !omap_cons_list.
    destruct (decide (x = target)) as [->|Hne].
    + rewrite Hf, Hg. simpl. by rewrite (omap_agree f g target l).
    + apply elem_of_cons in Hin as [Heq|Hin]; [congruence |].
      rewrite (Hfg x Hne), (IH Hnd Hin).
      destruct (f x); simpl; [apply Permutation_swap | reflexivity].
Qed.

Lemma NoDup_roms : NoDup roms.
Proof. compute_done. Qed.

Lemma images_store target a this :
  load target this = nullptr ->
  images (store target (Some a) this) ≡ₚ a :: images this.
Proof.
  intros Hl. unfold images.
  apply omap_fill with (target := target).
  - exact Hl.
  - apply load_store_eq.
  - intros rom Hne. by apply load_store_ne.
  - apply NoDup_roms.
  - unfold roms. destruct target; set_solver.
Qed.

Lemma NoDup_images_store target a this :
  load target this = nullptr ->
  a ∉ images this ->
  NoDup (images this) ->
  NoDup (images (store target (Some a) this)).
Proof.
  intros Hl Hn Hnd. rewrite (images_store target a this Hl).
  by apply NoDup_cons.
Qed.

(** A call of [CheckROM] opens the path once and either fails, with the
    manager and the set of allocated images as before, or stores the
    image it has just allocated. *)
Lemma CheckROM_spec E pPath s :
  opens (trace (CheckROM E pPath s).2) = opens (trace s) ++ [pPath]
  /\ ((CheckROM E pPath s).1 = false
      /\ self (CheckROM E pPath s).2 = self s
      /\ heap (CheckROM E pPath s).2 = heap s
      \/ (CheckROM E pPath s).1 = true
         /\ FileStream_open E pPath = true
         /\ heap (CheckROM E pPath s).2 = {[alloc E (heap s)]} ∪ heap s
         /\ exists target,
              load target (self s) = nullptr
              /\ StoreROM {| addressOf := alloc E (heap s);
                             getROMInfo := identify E pPath |} (self s)
                 = (true, self (CheckROM E pPath s).2)
              /\ self (CheckROM E pPath s).2
                 = store target (Some (alloc E (heap s))) (self s)).
Proof.
  unfold CheckROM, open, emit, makeROMImage, on_self, freeROMImage.
  unfold mbind, M_bind, mret, M_ret. simpl.
  destruct (FileStream_open E pPath); simpl.
  - pose proof (alloc_fresh E (heap s)) as Hfresh.
    set (rom := {| addressOf := alloc E (heap s);
                   getROMInfo := identify E pPath |}).
    destruct (StoreROM_cases rom (self s)) as [H|(target & Hl & H)];
      rewrite H; simpl.
    + split; [by rewrite !opens_app, <- !app_assoc |].
      left. split; [done |]. split; [done |].
      apply set_eq. intros b. rewrite elem_of_difference, elem_of_union,
        elem_of_singleton. split; [tauto |].
      intros Hb. split; [tauto |]. by intros ->.
    + split; [by rewrite !opens_app, <- !app_assoc |].
      right. split; [done |]. split; [done |]. split; [done |].
      exists target. done.
  - split; [by rewrite !opens_app, <- !app_assoc |].
    left. done.
Qed.

Lemma store_inv_new FileSystem h t :
  store_inv {| self := CROMManager_new FileSystem; heap := h; trace := t |}.
Proof. split; simpl; [apply NoDup_nil_2 | apply Forall_nil_2]. Qed.

Lemma store_inv_CheckROM E pPath s :
  store_inv s -> store_inv (CheckROM E pPath s).2.
Proof.
  intros [Hnd Hlive]. rewrite Forall_forall in Hlive.
  destruct (CheckROM_spec E pPath s)
    as [_ [(_ & Hs & Hh)|(_ & _ & Hh & target & Hl & _ & Hs)]];
    unfold store_inv; rewrite Hs, Hh, Forall_forall.
  - done.
  - pose proof (alloc_fresh E (heap s)) as Hfresh. split.
    + apply NoDup_images_store; [done | | done].
      intros Hin. by apply Hfresh, Hlive.
    + intros b Hb. apply elem_of_images_store in Hb; [| done].
      destruct Hb as [->|Hb].
      * apply elem_of_union. left. by apply elem_of_singleton.
      * apply elem_of_union. right. by apply Hlive.
Qed.

(** Where the loop goes on, the rest of the walk stays in bounds. *)
Lemma in_bounds_cons E result fileInfo rest :
  in_bounds E ((result, fileInfo) :: rest) = true ->
  is_FR_OK result && negb (String.eqb (fname fileInfo) "") = true ->
  in_bounds E rest = true.
Proof.
  cbn [in_bounds]. intros Hb Hv. rewrite Hv in Hb.
  by apply andb_true_iff in Hb as [_ Hb].
Qed.

(** One turn of the loop, when no [strcpy] leaves the buffer. *)
Lemma ScanROMs_loop_cons E result fileInfo rest s :
  in_bounds E ((result, fileInfo) :: rest) = true ->
  ScanROMs_loop E ((result, fileInfo) :: rest) s =
    if is_FR_OK result && negb (String.eqb (fname fileInfo) "") then
      if N.eqb (N.land (fattrib fileInfo) (N.lor AM_DIR (N.lor AM_HID AM_SYS))) 0
      then ScanROMs_loop E rest
             (CheckROM E (ROMPath +:+ "/" +:+ fname fileInfo) s).2
      else ScanROMs_loop E rest s
    else (tt, s).
Proof.
  cbn [ScanROMs_loop in_bounds].
  destruct (is_FR_OK result && _); [| reflexivity].
  destruct (N.eqb _ 0); [| reflexivity].
  intros [-> _]%andb_true_iff.
  unfold mbind, M_bind. by destruct (CheckROM E _ s).
Qed.

Lemma ScanROMs_unfold E s :
  ScanROMs E s =
    if HaveROMSet (self (walk E s)) Any then (true, walk E s)
    else if (CheckROM E MT32ControlROMName (walk E s)).1
    then CheckROM E MT32PCMROMName
           (CheckROM E MT32ControlROMName (walk E s)).2
    else (false, (CheckROM E MT32ControlROMName (walk E s)).2).
Proof.
  unfold ScanROMs, walk, mbind, M_bind, get_self.
  destruct (ScanROMs_loop E (f_find E ROMPath) s) as [[] s1]. cbn [snd].
  destruct (HaveROMSet (self s1) Any); cbn [negb]; [reflexivity |].
  by destruct (CheckROM E MT32ControlROMName s1) as [[] s2].
Qed.

Lemma store_inv_ScanROMs_loop E answers s :
  in_bounds E answers = true ->
  store_inv s -> store_inv (ScanROMs_loop E answers s).2.
Proof.
  revert s. induction answers as [|[result fileInfo] rest IH]; intros s Hb Hs.
  - done.
  - rewrite ScanROMs_loop_cons by done.
    destruct (is_FR_OK result && _) eqn:Hv; [| done].
    pose proof (in_bounds_cons _ _ _ _ Hb Hv) as Hb'.
    destruct (N.eqb _ 0); [| by apply IH].
    by apply IH, store_inv_CheckROM.
Qed.

Lemma store_inv_ScanROMs E s :
  names_fit E = true -> store_inv s -> store_inv (ScanROMs E s).2.
Proof.
  intros Hb Hs. rewrite ScanROMs_unfold.
  assert (H1 : store_inv (walk E s)) by by apply store_inv_ScanROMs_loop.
  destruct (HaveROMSet _ Any); [done |].
  destruct (CheckROM E MT32ControlROMName (walk E s)).1;
    by repeat apply store_inv_CheckROM.
Qed.

(** The invariant holds in every state the program gets into. *)
Lemma reachable_store_inv s : reachable s -> store_inv s.
Proof.
  induction 1 as [FileSystem h t|E pPath s _ IH|E s Hb _ IH|s h t _ IH Hh].
  - apply store_inv_new.
  - by apply store_inv_CheckROM.
  - by apply store_inv_ScanROMs.
  - destruct IH as [Hnd _]. by split.
Qed.

(** ** Monotonicity of the members *)

Lemma StoreROM_keeps ROMImage this rom a :
  load rom this = Some a -> load rom (StoreROM ROMImage this).2 = Some a.
Proof.
  intros Ha.
  destruct (StoreROM_cases ROMImage this) as [H|(target & Hl & H)];
    rewrite H; simpl; [done |].
  rewrite load_store_ne; [done |]. intros ->. congruence.
Qed.

Lemma CheckROM_keeps E pPath s rom a :
  load rom (self s) = Some a ->
  load rom (self (CheckROM E pPath s).2) = Some a.
Proof.
  intros Ha.
  destruct (CheckROM_spec E pPath s)
    as [_ [(_ & Hs & _)|(_ & _ & _ & target & _ & Hst & _)]].
  - by rewrite Hs.
  - pose proof (StoreROM_keeps {| addressOf := alloc E (heap s);
                                  getROMInfo := identify E pPath |}
                  (self s) rom a Ha) as H.
    by rewrite Hst in H.
Qed.

Lemma ScanROMs_loop_keeps E answers s rom a :
  in_bounds E answers = true ->
  load rom (self s) = Some a ->
  load rom (self (ScanROMs_loop E answers s).2) = Some a.
Proof.
  revert s. induction answers as [|[result fileInfo] rest IH]; intros s Hb Ha.
  - done.
  - rewrite ScanROMs_loop_cons by done.
    destruct (is_FR_OK result && _) eqn:Hv; [| done].
    pose proof (in_bounds_cons _ _ _ _ Hb Hv) as Hb'.
    destruct (N.eqb _ 0); [| by apply IH].
    by apply IH, CheckROM_keeps.
Qed.

Lemma ScanROMs_keeps E s rom a :
  names_fit E = true ->
  load rom (self s) = Some a ->
  load rom (self (ScanROMs E s).2) = Some a.
Proof.
  intros Hb Ha. rewrite ScanROMs_unfold.
  assert (H1 : load rom (self (walk E s)) = Some a)
    by by apply ScanROMs_loop_keeps.
  destruct (HaveROMSet _ Any); [done |].
  destruct (CheckROM E MT32ControlROMName (walk E s)).1;
    by repeat apply CheckROM_keeps.
Qed.

Lemma call_keeps c s rom a :
  defined_call c = true ->
  load rom (self s) = Some a -> load rom (self (call c s)) = Some a.
Proof.
  intros Hd Ha. destruct c as [ROMImage|E pPath|E]; simpl.
  - unfold on_self.
    pose proof (StoreROM_keeps ROMImage (self s) rom a Ha) as H.
    by destruct (StoreROM ROMImage (self s)).
  - by apply CheckROM_keeps.
  - by apply ScanROMs_keeps.
Qed.

(** C10.  A call of [StoreROM] leaves every filled member as it is;
    when it succeeds it fills one member that was empty with the new
    image and leaves the other four as they were.  Hence, through any
    sequence of [StoreROM], [CheckROM] and [ScanROMs] calls whose
    behaviour is defined (each [ScanROMs] walks a ROM directory whose
    names fit the path buffer, so that no [strcpy] writes past it), a
    member that holds an image keeps holding that image. *)
Theorem members_monotone :
  (forall ROMImage this rom a,
     load rom this = Some a ->
     load rom (StoreROM ROMImage this).2 = Some a)
  /\ (forall ROMImage this,
        (StoreROM ROMImage this).1 = true ->
        exists target,
          load target this = nullptr
          /\ load target (StoreROM ROMImage this).2
             = Some (addressOf ROMImage)
          /\ forall rom, rom <> target ->
               load rom (StoreROM ROMImage this).2 = load rom this)
  /\ (forall calls s rom a,
        forallb defined_call calls = true ->
        load rom (self s) = Some a ->
        load rom (self (run calls s)) = Some a).
Proof.
  split; [exact StoreROM_keeps |]. split.
  - intros ROMImage this Hok.
    destruct (StoreROM_cases ROMImage this) as [H|(target & Hl & H)];
      rewrite H in *; [done |].
    exists target. simpl. split; [done |].
    split; [apply load_store_eq |].
    intros rom Hne. by apply load_store_ne.
  - intros calls. unfold run.
    induction calls as [|c calls IH]; intros s rom a Hd Ha; [done |].
    simpl in Hd. apply andb_true_iff in Hd as [Hc Hd].
    simpl. by apply IH, call_keeps.
Qed.

(** ** The fallback of ScanROMs *)

(** C4, as the code has it.  When the walk leaves a complete [Any]
    set, [ScanROMs] returns [true] and calls [CheckROM] no more.
    Otherwise it calls [CheckROM] once on the legacy control name and,
    only if that call succeeds, once on the legacy PCM name; when the
    control call fails the PCM name is not tried.  [ScanROMs] returns
    [true] exactly when the walk left a complete [Any] set or both
    fallback calls succeed. *)
Theorem ScanROMs_fallback E s :
  let s1 := walk E s in
  let control := CheckROM E MT32ControlROMName s1 in
  let pcm := CheckROM E MT32PCMROMName control.2 in
  (HaveROMSet (self s1) Any = true -> ScanROMs E s = (true, s1))
  /\ (HaveROMSet (self s1) Any = false ->
      (control.1 = false ->
       ScanROMs E s = (false, control.2)
       /\ opens (trace (ScanROMs E s).2)
          = opens (trace s1) ++ [MT32ControlROMName])
      /\ (control.1 = true ->
          ScanROMs E s = pcm
          /\ opens (trace (ScanROMs E s).2)
             = opens (trace s1) ++ [MT32ControlROMName; MT32PCMROMName]))
  /\ ((ScanROMs E s).1 = true <->
      HaveROMSet (self s1) Any = true
      \/ (control.1 = true /\ pcm.1 = true)).
Proof.
  intros s1 control pcm. rewrite ScanROMs_unfold. fold s1. fold control.
  destruct (CheckROM_spec E MT32ControlROMName s1) as [Ho1 _].
  destruct (CheckROM_spec E MT32PCMROMName control.2) as [Ho2 _].
  fold control in Ho1. fold pcm in Ho2.
  split; [| split].
  - by intros ->.
  - intros ->. split.
    + intros ->. done.
    + intros ->. split; [done |].
      fold pcm. rewrite Ho2, Ho1. by rewrite <- app_assoc.
  - destruct (HaveROMSet (self s1) Any); simpl.
    + split; [by left | done].
    + destruct control.1 eqn:Hc; fold pcm; simpl.
      * split; [by right | by intros [?|[_ ?]]].
      * split; [done | by intros [?|[? _]]].
Qed.

(** ** The destructor *)

Lemma free_each_spec (l : list Slot) s :
  free_each l s =
    (tt, {| self := self s;
            heap := heap s ∖ list_to_set (omap (fun rom => load rom (self s)) l);
            trace := trace s
                     ++ map EvFreeROMImage
                          (omap (fun rom => load rom (self s)) l) |}).
Proof.
  revert s. induction l as [|rom l IH]; intros s.
  - simpl. unfold mret, M_ret. destruct s as [this h t]. simpl.
    by rewrite difference_empty_L, app_nil_r.
  - cbn [free_each]. unfold mbind, M_bind, get_self.
    rewrite omap_cons_list.
    destruct (load rom (self s)) as [a|]; simpl.
    + rewrite IH. simpl.
      by rewrite difference_difference_l_L, <- app_assoc.
    + unfold mret, M_ret. by rewrite IH.
Qed.

Lemma times_not_elem a (l : list addr) : a ∉ l -> times a l = 0.
Proof.
  unfold times. induction l as [|x l IH]; intros Hn; [reflexivity |].
  apply not_elem_of_cons in Hn as [Hx Hl].
  rewrite filter_cons_False by done. by apply IH.
Qed.

Lemma times_NoDup a (l : list addr) : NoDup l -> a ∈ l -> times a l = 1.
Proof.
  induction l as [|x l IH]; intros Hnd Hin.
  - by apply elem_of_nil in Hin.
  - apply NoDup_cons in Hnd as [Hx Hnd]. unfold times.
    destruct (decide (a = x)) as [->|Hne].
    + rewrite filter_cons_True by done. simpl. f_equal.
      by apply times_not_elem.
    + rewrite filter_cons_False by done.
      apply elem_of_cons in Hin as [?|Hin]; [done |]. by apply IH.
Qed.

Lemma length_omap_filled (f : Slot -> option addr) (l : list Slot) :
  length (omap f l) = length (filter (fun rom => is_Some (f rom)) l).
Proof.
  induction l as [|x l IH]; [reflexivity |].
  rewrite omap_cons_list. destruct (f x) as [a|] eqn:Hx.
  - rewrite filter_cons_True by (rewrite Hx; eauto). simpl. by rewrite IH.
  - rewrite filter_cons_False by (rewrite Hx; by intros [? ?]). done.
Qed.

(** C8.  From a state that satisfies the invariant of the store (every
    state the program gets into, [reachable_store_inv]), the destructor
    calls [freeROMImage] and nothing else, once for each filled member,
    in the order of [roms]: the number of calls is the number of filled
    members, the image of a filled member is released exactly once, was
    allocated before and is not afterwards, and an address that no
    member holds is not released. *)
Theorem destructor_releases_filled_members s :
  store_inv s ->
  trace (CROMManager_delete s).2
  = trace s ++ map EvFreeROMImage (images (self s))
  /\ length (images (self s))
     = length (filter (fun rom => is_Some (load rom (self s))) roms)
  /\ (forall rom a, load rom (self s) = Some a ->
        times a (images (self s)) = 1
        /\ a ∈ heap s
        /\ a ∉ heap (CROMManager_delete s).2)
  /\ (forall a, (forall rom, load rom (self s) <> Some a) ->
        times a (images (self s)) = 0)
  /\ heap (CROMManager_delete s).2
     = heap s ∖ list_to_set (images (self s)).
Proof.
  intros [Hnd Hlive]. rewrite Forall_forall in Hlive.
  unfold CROMManager_delete.
  rewrite free_each_spec. fold (images (self s)). simpl.
  split; [done |]. split; [apply length_omap_filled |].
  split; [| split; [| done]].
  - intros rom a Ha.
    assert (Hin : a ∈ images (self s)) by (apply elem_of_images; eauto).
    split; [by apply times_NoDup |]. split; [by apply Hlive |].
    rewrite elem_of_difference, elem_of_list_to_set. tauto.
  - intros a Hno. apply times_not_elem.
    rewrite elem_of_images. intros [rom H]. by apply (Hno rom).
Qed.

Example scan_old_control_cm32l_pcm :
  (ScanROMs old_control_cm32l_pcm power_on).1 = true
  /\ self (ScanROMs old_control_cm32l_pcm power_on).2
     = {| mFileSystem := 1%positive;
          mMT32OldControl := Some 1%positive;
          mMT32NewControl := nullptr;
          mCM32LControl := nullptr;
          mMT32PCM := nullptr;
          mCM32LPCM := Some 2%positive |}
  /\ trace (ScanROMs old_control_cm32l_pcm power_on).2
     = [EvOpen "roms/a.rom" true; EvMakeROMImage 1%positive;
        EvOpen "roms/readme.txt" true; EvMakeROMImage 2%positive;
        EvFreeROMImage 2%positive; EvDeleteFile "roms/readme.txt";
        EvOpen "roms/b.rom" true; EvMakeROMImage 2%positive]
  /\ GetROMSet (self (ScanROMs old_control_cm32l_pcm power_on).2) Any
       nullptr nullptr
     = {| ok := true; outControl := Some 1%positive; outPCM := nullptr |}.
Proof. by vm_compute. Qed.

(** C4 as stated fails: with the legacy control file missing, the
    legacy PCM file is never opened. *)
Lemma ScanROMs_fallback_skips_PCM : ~ fallback_tries_both pcm_only power_on.
Proof.
  intros H.
  assert (Hhave : HaveROMSet (self (walk pcm_only power_on)) Any = false)
    by by vm_compute.
  specialize (H Hhave). vm_compute in H. discriminate H.
Qed.

Lemma ScanROMs_fallback_witness :
  HaveROMSet (self (walk pcm_only power_on)) Any = false
  /\ (CheckROM pcm_only MT32ControlROMName (walk pcm_only power_on)).1 = false
  /\ opens (trace (ScanROMs pcm_only power_on).2)
     = opens (trace (walk pcm_only power_on)) ++ [MT32ControlROMName].
Proof.
  assert (Hhave : HaveROMSet (self (walk pcm_only power_on)) Any = false)
    by (vm_compute; reflexivity).
  assert (Hc : (CheckROM pcm_only MT32ControlROMName
                  (walk pcm_only power_on)).1 = false)
    by (vm_compute; reflexivity).
  split; [exact Hhave |]. split; [exact Hc |].
  destruct (ScanROMs_fallback pcm_only power_on) as (_ & H & _).
  destruct (H Hhave) as [Hfail _].
  exact (proj2 (Hfail Hc)).
Defined.

Lemma members_monotone_witness :
  let s := (ScanROMs old_control_cm32l_pcm power_on).2 in
  let again :=
    {| addressOf := 9%positive;
       getROMInfo := Some {| type := Control; shortName := "ctrl_mt32_bluer" |} |} in
  let calls := [CallStoreROM again;
                CallCheckROM old_control_cm32l_pcm "roms/a.rom";
                CallScanROMs pcm_only] in
  forallb defined_call calls = true
  /\ load AtMT32OldControl (self s) = Some 1%positive
  /\ load AtMT32OldControl (self (run calls s)) = Some 1%positive.
Proof.
  intros s again calls.
  assert (Hd : forallb defined_call calls = true)
    by (vm_compute; reflexivity).
  assert (H : load AtMT32OldControl (self s) = Some 1%positive)
    by (vm_compute; reflexivity).
  split; [exact Hd |]. split; [exact H |].
  destruct members_monotone as (_ & _ & Hrun). by apply Hrun.
Defined.

Lemma destructor_releases_filled_members_witness :
  let s := (ScanROMs old_control_cm32l_pcm power_on).2 in
  store_inv s
  /\ trace (CROMManager_delete s).2
     = trace s ++ map EvFreeROMImage (images (self s)).
Proof.
  intros s.
  assert (Hinv : store_inv s) by compute_done.
  split; [exact Hinv |].
  exact (proj1 (destructor_releases_filled_members s Hinv)).
Defined.

Example destructor_after_scan :
  let s := (ScanROMs old_control_cm32l_pcm power_on).2 in
  images (self s) = [1%positive; 2%positive]
  /\ released (trace (CROMManager_delete s).2)
     = [2%positive; 1%positive; 2%positive]
  /\ elements (heap (CROMManager_delete s).2) = [].
Proof. by vm_compute. Qed.

(** * Further properties *)

(** ** Queries *)

(** On success both outputs of [GetROMSet] are members of the manager,
    and the control output is a filled one. *)
Lemma GetROMSet_out_members this ROMSet c0 p0 :
  HaveROMSet this ROMSet = true ->
  exists control pcm,
    outControl (GetROMSet this ROMSet c0 p0) = load control this
    /\ outPCM (GetROMSet this ROMSet c0 p0) = load pcm this
    /\ is_Some (load control this).
Proof.
  intros H. pose proof (proj1 (HaveROMSet_true this ROMSet) H) as Hm.
  destruct ROMSet.
  - rewrite (GetROMSet_Any_outPCM this c0 p0 H),
      (GetROMSet_Any_outControl this c0 p0 H).
    destruct Hm as [Hc _].
    assert (Hpcm : forall c : ptr, exists pcm,
      (if ptr_eqb c (mCM32LControl this) && nonnull (mCM32LPCM this)
       then mCM32LPCM this else mMT32PCM this) = load pcm this).
    { intros c. destruct (ptr_eqb _ _ && _);
        [by exists AtCM32LPCM | by exists AtMT32PCM]. }
    destruct (mMT32OldControl this) as [a|] eqn:Ho.
    + destruct (Hpcm (Some a)) as [pcm Hp].
      exists AtMT32OldControl, pcm. simpl. rewrite Ho. eauto.
    + destruct (mMT32NewControl this) as [b|] eqn:Hn.
      * destruct (Hpcm (Some b)) as [pcm Hp].
        exists AtMT32NewControl, pcm. simpl. rewrite Hn. eauto.
      * destruct (Hpcm (mCM32LControl this)) as [pcm Hp].
        exists AtCM32LControl, pcm. simpl.
        destruct Hc as [[? ?]|[[? ?]|?]]; done.
  - destruct (GetROMSet_named_out this MT32Old c0 p0 H) as [Hc Hp].
    exists AtMT32OldControl, AtMT32PCM. simpl. tauto.
  - destruct (GetROMSet_named_out this MT32New c0 p0 H) as [Hc Hp].
    exists AtMT32NewControl, AtMT32PCM. simpl. tauto.
  - destruct (GetROMSet_named_out this CM32L c0 p0 H) as [Hc Hp].
    exists AtCM32LControl, AtCM32LPCM. simpl. tauto.
Qed.

(** X1.  [Any] is available exactly when a named kind is available or
    the filled members only pair across the families: the CM32L control
    with the MT32 PCM, or an MT32 control with the CM32L PCM. *)
Theorem HaveROMSet_Any_named_or_mixed this :
  HaveROMSet this Any = true <->
    (exists ROMSet, ROMSet <> Any /\ HaveROMSet this ROMSet = true)
    \/ (is_Some (mCM32LControl this) /\ is_Some (mMT32PCM this))
    \/ ((is_Some (mMT32OldControl this) \/ is_Some (mMT32NewControl this))
        /\ is_Some (mCM32LPCM this)).
Proof.
  rewrite (HaveROMSet_true this Any). split.
  - intros [[Ho|[Hn|Hc]] [Hp|Hl]].
    + left. exists MT32Old. split; [done |]. by apply HaveROMSet_true.
    + right. right. tauto.
    + left. exists MT32New. split; [done |]. by apply HaveROMSet_true.
    + right. right. tauto.
    + right. left. tauto.
    + left. exists CM32L. split; [done |]. by apply HaveROMSet_true.
  - intros [(ROMSet & Hne & H)|[?|?]]; [| tauto | tauto].
    apply HaveROMSet_true in H. destruct ROMSet; [done | tauto ..].
Qed.

(** X2.  In a store where no image sits in two members, [GetROMSet(Any)]
    answers like the named kind of the control it picks whenever that
    kind is complete: like [MT32Old] when that set is complete, like
    [MT32New] when the MT32-old control member is empty and that set is
    complete, like [CM32L] when both MT32 control members are empty and
    that set is complete. *)
Theorem GetROMSet_Any_named this c0 p0 :
  NoDup (images this) ->
  (HaveROMSet this MT32Old = true ->
   GetROMSet this Any c0 p0 = GetROMSet this MT32Old c0 p0)
  /\ (mMT32OldControl this = nullptr -> HaveROMSet this MT32New = true ->
      GetROMSet this Any c0 p0 = GetROMSet this MT32New c0 p0)
  /\ (mMT32OldControl this = nullptr -> mMT32NewControl this = nullptr ->
      HaveROMSet this CM32L = true ->
      GetROMSet this Any c0 p0 = GetROMSet this CM32L c0 p0).
Proof.
  intros Hnd.
  assert (Hany : forall ROMSet,
    HaveROMSet this ROMSet = true -> HaveROMSet this Any = true).
  { intros ROMSet H. apply HaveROMSet_true in H. apply (HaveROMSet_true this Any).
    destruct ROMSet; tauto. }
  assert (Hgen : forall ROMSet,
    HaveROMSet this ROMSet = true ->
    outControl (GetROMSet this Any c0 p0)
    = outControl (GetROMSet this ROMSet c0 p0) ->
    outPCM (GetROMSet this Any c0 p0) = outPCM (GetROMSet this ROMSet c0 p0) ->
    GetROMSet this Any c0 p0 = GetROMSet this ROMSet c0 p0).
  { intros ROMSet H Hc Hp.
    pose proof (GetROMSet_ok this Any c0 p0) as Ha.
    pose proof (GetROMSet_ok this ROMSet c0 p0) as Hk.
    rewrite (Hany ROMSet H) in Ha. rewrite H in Hk.
    destruct (GetROMSet this Any c0 p0), (GetROMSet this ROMSet c0 p0).
    simpl in *. congruence. }
  split; [| split].
  - intros H. destruct (GetROMSet_named_out this MT32Old c0 p0 H) as [Hc Hp].
    pose proof (proj1 (HaveROMSet_true this MT32Old) H) as [Ho _].
    destruct (GetROMSet_Any_MT32_control this c0 p0 (Hany _ H) Hnd
                (or_introl Ho)) as [_ Hpcm].
    apply Hgen; [done | | by rewrite Hp, Hpcm].
    rewrite Hc, (GetROMSet_Any_outControl this c0 p0 (Hany _ H)).
    by destruct Ho as [a ->].
  - intros Hold H.
    destruct (GetROMSet_named_out this MT32New c0 p0 H) as [Hc Hp].
    pose proof (proj1 (HaveROMSet_true this MT32New) H) as [Hn _].
    destruct (GetROMSet_Any_MT32_control this c0 p0 (Hany _ H) Hnd
                (or_intror Hn)) as [_ Hpcm].
    apply Hgen; [done | | by rewrite Hp, Hpcm].
    rewrite Hc, (GetROMSet_Any_outControl this c0 p0 (Hany _ H)), Hold.
    by destruct Hn as [b ->].
  - intros Hold Hnew H.
    destruct (GetROMSet_named_out this CM32L c0 p0 H) as [Hc Hp].
    pose proof (proj1 (HaveROMSet_true this CM32L) H) as [_ Hl].
    assert (Hctl : outControl (GetROMSet this Any c0 p0) = mCM32LControl this)
      by by rewrite (GetROMSet_Any_outControl this c0 p0 (Hany _ H)), Hold, Hnew.
    apply Hgen; [done | by rewrite Hc |].
    rewrite Hp, (GetROMSet_Any_outPCM this c0 p0 (Hany _ H)), Hctl.
    apply nonnull_is_Some in Hl. rewrite Hl.
    by rewrite (proj2 (ptr_eqb_eq _ _) eq_refl).
Qed.

Lemma GetROMSet_Any_named_witness :
  let this := {| mFileSystem := 1%positive;
                 mMT32OldControl := nullptr;
                 mMT32NewControl := Some 2%positive;
                 mCM32LControl := Some 3%positive;
                 mMT32PCM := Some 4%positive;
                 mCM32LPCM := Some 5%positive |} in
  NoDup (images this)
  /\ HaveROMSet this MT32New = true
  /\ GetROMSet this Any nullptr nullptr = GetROMSet this MT32New nullptr nullptr.
Proof.
  intros this.
  assert (Hnd : NoDup (images this)) by compute_done.
  split; [exact Hnd |]. split; [reflexivity |].
  destruct (GetROMSet_Any_named this nullptr nullptr Hnd) as (_ & H & _).
  apply H; reflexivity.
Defined.

(** X3.  With both MT32 control members empty, the CM32L control member
    filled, the CM32L PCM member empty and the MT32 PCM member filled,
    [GetROMSet(Any)] succeeds with the CM32L control and the MT32 PCM:
    the MT32 PCM stands in where there is no CM32L PCM. *)
Theorem GetROMSet_Any_CM32L_control_MT32_PCM this c0 p0 :
  mMT32OldControl this = nullptr ->
  mMT32NewControl this = nullptr ->
  is_Some (mCM32LControl this) ->
  mCM32LPCM this = nullptr ->
  is_Some (mMT32PCM this) ->
  GetROMSet this Any c0 p0
  = {| ok := true; outControl := mCM32LControl this;
       outPCM := mMT32PCM this |}.
Proof.
  intros Ho Hn Hc Hl Hp.
  assert (H : HaveROMSet this Any = true)
    by (apply (HaveROMSet_true this Any); tauto).
  pose proof (GetROMSet_ok this Any c0 p0) as Hok.
  pose proof (GetROMSet_Any_outControl this c0 p0 H) as Hctl.
  pose proof (GetROMSet_Any_outPCM this c0 p0 H) as Hpcm.
  rewrite Ho, Hn in Hctl. rewrite Hl, andb_false_r in Hpcm.
  destruct (GetROMSet this Any c0 p0). simpl in *. congruence.
Qed.

Lemma GetROMSet_Any_CM32L_control_MT32_PCM_witness :
  GetROMSet {| mFileSystem := 1%positive;
               mMT32OldControl := nullptr;
               mMT32NewControl := nullptr;
               mCM32LControl := Some 2%positive;
               mMT32PCM := Some 3%positive;
               mCM32LPCM := nullptr |} Any nullptr nullptr
  = {| ok := true; outControl := Some 2%positive;
       outPCM := Some 3%positive |}.
Proof.
  apply (GetROMSet_Any_CM32L_control_MT32_PCM
           {| mFileSystem := 1%positive;
              mMT32OldControl := nullptr;
              mMT32NewControl := nullptr;
              mCM32LControl := Some 2%positive;
              mMT32PCM := Some 3%positive;
              mCM32LPCM := nullptr |});
    first [reflexivity | by eexists].
Defined.

(** X4.  When [GetROMSet(Any)] succeeds in a store where no image sits
    in two members, its control output is never null, and its PCM
    output is an image exactly when the MT32 PCM member is filled or,
    with both MT32 control members empty, the CM32L PCM member is. *)
Theorem GetROMSet_Any_full_pair this c0 p0 :
  HaveROMSet this Any = true ->
  NoDup (images this) ->
  is_Some (outControl (GetROMSet this Any c0 p0))
  /\ (is_Some (outPCM (GetROMSet this Any c0 p0)) <->
      is_Some (mMT32PCM this)
      \/ (mMT32OldControl this = nullptr /\ mMT32NewControl this = nullptr
          /\ is_Some (mCM32LPCM this))).
Proof.
  intros H Hnd. split.
  - destruct (GetROMSet_out_members this Any c0 p0 H) as (c & p & Hc & _ & Hs).
    by rewrite Hc.
  - destruct (mMT32OldControl this) as [a|] eqn:Ho.
    { destruct (GetROMSet_Any_MT32_control this c0 p0 H Hnd) as [_ Hp].
      - left. rewrite Ho. by eexists.
      - rewrite Hp. split; [tauto |]. intros [?|(? & _)]; done. }
    destruct (mMT32NewControl this) as [b|] eqn:Hn.
    { destruct (GetROMSet_Any_MT32_control this c0 p0 H Hnd) as [_ Hp].
      - right. rewrite Hn. by eexists.
      - rewrite Hp. split; [tauto |]. intros [?|(_ & ? & _)]; done. }
    rewrite (GetROMSet_Any_outPCM this c0 p0 H),
      (GetROMSet_Any_outControl this c0 p0 H), Ho, Hn.
    rewrite (proj2 (ptr_eqb_eq _ _) eq_refl). simpl.
    destruct (mCM32LPCM this) as [l|] eqn:Hl; simpl.
    + split; [intros _; right; eauto | eauto].
    + split; [tauto |]. intros [?|(_ & _ & [? ?])]; done.
Qed.

Lemma GetROMSet_Any_full_pair_witness :
  let this := {| mFileSystem := 1%positive;
                 mMT32OldControl := nullptr;
                 mMT32NewControl := nullptr;
                 mCM32LControl := Some 2%positive;
                 mMT32PCM := nullptr;
                 mCM32LPCM := Some 3%positive |} in
  HaveROMSet this Any = true
  /\ NoDup (images this)
  /\ is_Some (outPCM (GetROMSet this Any nullptr nullptr)).
Proof.
  intros this.
  assert (Hnd : NoDup (images this)) by compute_done.
  split; [reflexivity |]. split; [exact Hnd |].
  destruct (GetROMSet_Any_full_pair this nullptr nullptr) as [_ H];
    [reflexivity | exact Hnd |].
  apply H. right. split; [reflexivity |]. split; [reflexivity |].
  by exists 3%positive.
Defined.

(** X5.  In a state that satisfies the invariant of the store, the
    pointers a successful [GetROMSet] hands out are not dangling: the
    control output is an allocated image, and so is the PCM output
    unless it is null. *)
Theorem GetROMSet_outputs_allocated s ROMSet c0 p0 :
  store_inv s ->
  ok (GetROMSet (self s) ROMSet c0 p0) = true ->
  (exists a, outControl (GetROMSet (self s) ROMSet c0 p0) = Some a
             /\ a ∈ heap s)
  /\ (forall a, outPCM (GetROMSet (self s) ROMSet c0 p0) = Some a ->
                a ∈ heap s).
Proof.
  intros [_ Hlive] Hok. rewrite Forall_forall in Hlive.
  rewrite GetROMSet_ok in Hok.
  destruct (GetROMSet_out_members (self s) ROMSet c0 p0 Hok)
    as (c & p & Hc & Hp & [a Ha]).
  split.
  - exists a. split; [by rewrite Hc |].
    apply Hlive, elem_of_images. eauto.
  - intros b Hb. apply Hlive, elem_of_images. exists p. by rewrite <- Hp.
Qed.

Lemma GetROMSet_outputs_allocated_witness :
  let s := (ScanROMs old_control_cm32l_pcm power_on).2 in
  store_inv s
  /\ ok (GetROMSet (self s) Any nullptr nullptr) = true
  /\ exists a, outControl (GetROMSet (self s) Any nullptr nullptr) = Some a
               /\ a ∈ heap s.
Proof.
  intros s.
  assert (Hinv : store_inv s) by compute_done.
  assert (Hok : ok (GetROMSet (self s) Any nullptr nullptr) = true)
    by (vm_compute; reflexivity).
  split; [exact Hinv |]. split; [exact Hok |].
  exact (proj1 (GetROMSet_outputs_allocated s Any nullptr nullptr Hinv Hok)).
Defined.

(** ** StoreROM *)

Lemma StoreROM_target_of ROMImage this :
  StoreROM ROMImage this =
    match target_of ROMImage with
    | Some target => store_into target ROMImage this
    | None => (false, this)
    end.
Proof.
  unfold StoreROM, target_of, store_into.
  destruct (getROMInfo ROMImage) as [romInfo|]; [| reflexivity].
  destruct (romPtr romInfo) as [target|]; [| reflexivity].
  by destruct (load target this).
Qed.

Lemma store_store_ne target1 target2 v w this :
  target1 <> target2 ->
  store target1 v (store target2 w this)
  = store target2 w (store target1 v this).
Proof. by destruct target1, target2. Qed.

(** A descriptor of type [Control] is destined for a control member, a
    descriptor of type [PCM] for a PCM member, any other for none. *)
Lemma romPtr_kind romInfo :
  match romPtr romInfo with
  | Some target =>
      control_member target = ROMType_eqb (type romInfo) Control
      /\ (type romInfo = Control \/ type romInfo = PCM)
  | None => type romInfo <> Control /\ type romInfo <> PCM
  end.
Proof.
  unfold romPtr. destruct (type romInfo) as [| |code]; simpl;
    repeat match goal with
    | |- context [if ?b then _ else _] => destruct b
    end; simpl; try tauto; done.
Qed.


(** X7.  The first image wins: once [StoreROM] has accepted a
    descriptor, every descriptor destined for the same member, the same
    one offered again included, is refused and changes nothing. *)
Theorem StoreROM_second_refused first second this :
  (StoreROM first this).1 = true ->
  target_of second = target_of first ->
  StoreROM second (StoreROM first this).2
  = (false, (StoreROM first this).2).
Proof.
  rewrite (StoreROM_target_of second), (StoreROM_target_of first).
  intros Hok ->. unfold store_into in *.
  destruct (target_of first) as [target|]; [| done].
  destruct (load target this) eqn:Hl; [done |]. simpl.
  by rewrite load_store_eq.
Qed.

Lemma StoreROM_second_refused_witness :
  let old107 := {| addressOf := 2%positive;
                   getROMInfo := Some {| type := Control;
                                         shortName := "ctrl_mt32_1_07" |} |} in
  let blue := {| addressOf := 3%positive;
                 getROMInfo := Some {| type := Control;
                                       shortName := "ctrl_mt32_bluer" |} |} in
  let this := CROMManager_new 1%positive in
  (StoreROM old107 this).1 = true
  /\ StoreROM blue (StoreROM old107 this).2
     = (false, (StoreROM old107 this).2).
Proof.
  intros old107 blue this. split; [reflexivity |].
  apply (StoreROM_second_refused old107 blue this); reflexivity.
Defined.

(** X8.  Descriptors destined for different members do not interfere:
    offered in either order they get the same answers and leave the
    same manager. *)
Theorem StoreROM_commute a b this :
  target_of a <> target_of b ->
  (StoreROM b (StoreROM a this).2).2 = (StoreROM a (StoreROM b this).2).2
  /\ (StoreROM a (StoreROM b this).2).1 = (StoreROM a this).1
  /\ (StoreROM b (StoreROM a this).2).1 = (StoreROM b this).1.
Proof.
  intros Hne. rewrite !(StoreROM_target_of a), !(StoreROM_target_of b).
  unfold store_into.
  destruct (target_of a) as [ta|], (target_of b) as [tb|]; simpl.
  - assert (Hab : ta <> tb) by congruence.
    destruct (load ta this) eqn:Ha, (load tb this) eqn:Hb; simpl;
      rewrite ?load_store_ne, ?Ha, ?Hb by congruence; simpl;
      rewrite ?Ha, ?Hb; try done.
    split; [| done]. by apply store_store_ne.
  - by destruct (load ta this) eqn:Ha; simpl; rewrite ?Ha.
  - by destruct (load tb this) eqn:Hb; simpl; rewrite ?Hb.
  - done.
Qed.

Lemma StoreROM_commute_witness :
  let ctl := {| addressOf := 2%positive;
                getROMInfo := Some {| type := Control;
                                      shortName := "ctrl_cm32l_1_02" |} |} in
  let pcm := {| addressOf := 3%positive;
                getROMInfo := Some {| type := PCM;
                                      shortName := "pcm_cm32l" |} |} in
  let this := CROMManager_new 1%positive in
  target_of ctl <> target_of pcm
  /\ (StoreROM pcm (StoreROM ctl this).2).2
     = (StoreROM ctl (StoreROM pcm this).2).2.
Proof.
  intros ctl pcm this.
  assert (Hne : target_of ctl <> target_of pcm) by (vm_compute; congruence).
  split; [exact Hne |].
  exact (proj1 (StoreROM_commute ctl pcm this Hne)).
Defined.

(** X9.  [StoreROM] keeps the two families apart: an accepted
    descriptor of type [Control] fills one of the three control
    members, an accepted descriptor of type [PCM] one of the two PCM
    members, and no descriptor of another type is accepted. *)
Theorem StoreROM_kind ROMImage this :
  (StoreROM ROMImage this).1 = true ->
  exists romInfo target,
    getROMInfo ROMImage = Some romInfo
    /\ (type romInfo = Control \/ type romInfo = PCM)
    /\ control_member target = ROMType_eqb (type romInfo) Control
    /\ load target this = nullptr
    /\ (StoreROM ROMImage this).2
       = store target (Some (addressOf ROMImage)) this.
Proof.
  rewrite StoreROM_target_of. unfold target_of, store_into.
  destruct (getROMInfo ROMImage) as [romInfo|]; [| done].
  pose proof (romPtr_kind romInfo) as Hk.
  destruct (romPtr romInfo) as [target|]; [| done].
  destruct (load target this) eqn:Hl; [done |]. intros _.
  exists romInfo, target. simpl. tauto.
Qed.

Lemma StoreROM_kind_witness :
  let pcm := {| addressOf := 3%positive;
                getROMInfo := Some {| type := PCM;
                                      shortName := "pcm_mt32" |} |} in
  let this := CROMManager_new 1%positive in
  (StoreROM pcm this).1 = true
  /\ exists romInfo target,
       getROMInfo pcm = Some romInfo
       /\ (type romInfo = Control \/ type romInfo = PCM)
       /\ control_member target = ROMType_eqb (type romInfo) Control
       /\ load target this = nullptr
       /\ (StoreROM pcm this).2 = store target (Some (addressOf pcm)) this.
Proof.
  intros pcm this. split; [reflexivity |].
  apply (StoreROM_kind pcm this). reflexivity.
Defined.

(** ** Sets stay available *)

Lemma run_keeps calls s rom a :
  forallb defined_call calls = true ->
  load rom (self s) = Some a -> load rom (self (run calls s)) = Some a.
Proof.
  unfold run. revert s.
  induction calls as [|c calls IH]; intros s Hd Ha; [done |].
  simpl in Hd. apply andb_true_iff in Hd as [Hc Hd].
  simpl. by apply IH, call_keeps.
Qed.

Lemma keeps_HaveROMSet this this' ROMSet :
  (forall rom a, load rom this = Some a -> load rom this' = Some a) ->
  HaveROMSet this ROMSet = true -> HaveROMSet this' ROMSet = true.
Proof.
  intros Hk H. apply HaveROMSet_true in H. apply HaveROMSet_true.
  assert (Hs : forall rom, is_Some (load rom this) -> is_Some (load rom this')).
  { intros rom [a Ha]. exists a. by apply Hk. }
  pose proof (Hs AtMT32OldControl). pose proof (Hs AtMT32NewControl).
  pose proof (Hs AtCM32LControl). pose proof (Hs AtMT32PCM).
  pose proof (Hs AtCM32LPCM). simpl in *.
  destruct ROMSet; tauto.
Qed.

(** X10.  A set that is available stays available through any sequence
    of [StoreROM], [CheckROM] and [ScanROMs] calls whose behaviour is
    defined (each [ScanROMs] walks a ROM directory whose names fit the
    path buffer), and for a named kind [GetROMSet] keeps handing out
    the same pair. *)
Theorem sets_stay_available calls s ROMSet c0 p0 :
  forallb defined_call calls = true ->
  HaveROMSet (self s) ROMSet = true ->
  HaveROMSet (self (run calls s)) ROMSet = true
  /\ (ROMSet <> Any ->
      GetROMSet (self (run calls s)) ROMSet c0 p0
      = GetROMSet (self s) ROMSet c0 p0).
Proof.
  intros Hd H.
  assert (Hk : forall rom a, load rom (self s) = Some a ->
                             load rom (self (run calls s)) = Some a)
    by (intros rom a; by apply run_keeps).
  assert (H' : HaveROMSet (self (run calls s)) ROMSet = true)
    by by apply (keeps_HaveROMSet (self s)).
  split; [exact H' |]. intros Hne.
  pose proof (GetROMSet_ok (self s) ROMSet c0 p0) as Hok.
  pose proof (GetROMSet_ok (self (run calls s)) ROMSet c0 p0) as Hok'.
  pose proof (GetROMSet_named_out (self s) ROMSet c0 p0 H) as Ho.
  pose proof (GetROMSet_named_out (self (run calls s)) ROMSet c0 p0 H') as Ho'.
  pose proof (proj1 (HaveROMSet_true (self s) ROMSet) H) as Hm.
  rewrite H in Hok. rewrite H' in Hok'.
  assert (Hsame : forall rom, is_Some (load rom (self s)) ->
                    load rom (self (run calls s)) = load rom (self s)).
  { intros rom [a Ha]. rewrite Ha. by apply Hk. }
  pose proof (Hsame AtMT32OldControl). pose proof (Hsame AtMT32NewControl).
  pose proof (Hsame AtCM32LControl). pose proof (Hsame AtMT32PCM).
  pose proof (Hsame AtCM32LPCM). simpl in *.
  destruct (GetROMSet (self (run calls s)) ROMSet c0 p0),
    (GetROMSet (self s) ROMSet c0 p0). simpl in *. subst.
  destruct ROMSet; [done | ..]; destruct Ho as [-> ->], Ho' as [-> ->];
    f_equal; tauto.
Qed.

Lemma sets_stay_available_witness :
  let s := {| self := {| mFileSystem := 1%positive;
                         mMT32OldControl := nullptr;
                         mMT32NewControl := Some 2%positive;
                         mCM32LControl := nullptr;
                         mMT32PCM := Some 3%positive;
                         mCM32LPCM := nullptr |};
              heap := {[ 2%positive; 3%positive ]}; trace := [] |} in
  let calls := [CallScanROMs old_control_cm32l_pcm; CallScanROMs pcm_only] in
  forallb defined_call calls = true
  /\ HaveROMSet (self s) MT32New = true
  /\ HaveROMSet (self (run calls s)) MT32New = true
  /\ GetROMSet (self (run calls s)) MT32New nullptr nullptr
     = GetROMSet (self s) MT32New nullptr nullptr.
Proof.
  intros s calls.
  assert (Hd : forallb defined_call calls = true)
    by (vm_compute; reflexivity).
  assert (H : HaveROMSet (self s) MT32New = true) by reflexivity.
  destruct (sets_stay_available calls s MT32New nullptr nullptr Hd H)
    as [H1 H2].
  split; [exact Hd |]. split; [exact H |]. split; [exact H1 |].
  by apply H2.
Defined.

(** ** CheckROM *)

(** X11.  The three ways [CheckROM] ends.  A path that does not open is
    logged, its stream is deleted and no image is made.  A file whose
    image [StoreROM] refuses has that image released and its stream
    deleted, and the manager and the set of allocated images are as
    before.  Otherwise the image stays allocated in the member
    [StoreROM] chose, and neither it nor its stream is released. *)
Theorem CheckROM_outcomes E pPath s :
  let rom := image_at E pPath (heap s) in
  (FileStream_open E pPath = false ->
   CheckROM E pPath s
   = (false,
      {| self := self s; heap := heap s;
         trace := trace s ++ [EvOpen pPath false; EvLogError pPath;
                              EvDeleteFile pPath] |}))
  /\ (FileStream_open E pPath = true ->
      (StoreROM rom (self s)).1 = false ->
      CheckROM E pPath s
      = (false,
         {| self := self s; heap := heap s;
            trace := trace s ++ [EvOpen pPath true;
                                 EvMakeROMImage (addressOf rom);
                                 EvFreeROMImage (addressOf rom);
                                 EvDeleteFile pPath] |}))
  /\ (FileStream_open E pPath = true ->
      (StoreROM rom (self s)).1 = true ->
      CheckROM E pPath s
      = (true,
         {| self := (StoreROM rom (self s)).2;
            heap := {[addressOf rom]} ∪ heap s;
            trace := trace s ++ [EvOpen pPath true;
                                 EvMakeROMImage (addressOf rom)] |})).
Proof.
  intros rom.
  unfold CheckROM, open, emit, makeROMImage, on_self, freeROMImage.
  unfold mbind, M_bind, mret, M_ret. simpl.
  split; [| split].
  - intros ->. simpl. by rewrite <- !app_assoc.
  - intros -> Hst. simpl. fold (image_at E pPath (heap s)). fold rom.
    destruct (StoreROM rom (self s)) as [stored this'] eqn:Hs.
    simpl in Hst. subst stored. simpl.
    pose proof (StoreROM_false rom (self s) this' Hs) as ->.
    rewrite <- !app_assoc. simpl. do 2 f_equal.
    pose proof (alloc_fresh E (heap s)) as Hfresh.
    apply set_eq. intros b.
    rewrite elem_of_difference, elem_of_union, elem_of_singleton.
    split; [tauto |]. intros Hb. split; [tauto |]. by intros ->.
  - intros -> Hst. simpl. fold (image_at E pPath (heap s)). fold rom.
    destruct (StoreROM rom (self s)) as [stored this'] eqn:Hs.
    simpl in Hst. subst stored. simpl. by rewrite <- !app_assoc.
Qed.

Lemma CheckROM_outcomes_witness :
  FileStream_open pcm_only "MT32_CONTROL.ROM" = false
  /\ CheckROM pcm_only "MT32_CONTROL.ROM" power_on
     = (false,
        {| self := self power_on; heap := heap power_on;
           trace := trace power_on
                    ++ [EvOpen "MT32_CONTROL.ROM" false;
                        EvLogError "MT32_CONTROL.ROM";
                        EvDeleteFile "MT32_CONTROL.ROM"] |}).
Proof.
  assert (H : FileStream_open pcm_only "MT32_CONTROL.ROM" = false)
    by (vm_compute; reflexivity).
  split; [exact H |].
  exact (proj1 (CheckROM_outcomes pcm_only "MT32_CONTROL.ROM" power_on) H).
Defined.

(** ** The directory walk *)

Lemma land_pow2_0 a i : N.land a (2 ^ i) = 0%N <-> N.testbit a i = false.
Proof.
  split.
  - intros H. pose proof (N.land_spec a (2 ^ i) i) as Hs.
    rewrite H, N.bits_0, N.pow2_bits_true, andb_true_r in Hs. done.
  - intros H. apply N.bits_inj_0. intros n.
    rewrite N.land_spec, N.pow2_bits_eqb.
    destruct (N.eqb_spec i n) as [->|Hne];
      [by rewrite H | by rewrite andb_false_r].
Qed.

(** The attribute test of the loop lets exactly the plain files pass. *)
Lemma attribute_test fileInfo :
  N.eqb (N.land (fattrib fileInfo) (N.lor AM_DIR (N.lor AM_HID AM_SYS))) 0
  = plain_file fileInfo.
Proof.
  unfold plain_file. apply eq_true_iff_eq.
  rewrite N.eqb_eq, N.land_lor_distr_r, N.land_lor_distr_r.
  rewrite !N.lor_eq_0_iff, !andb_true_iff, !negb_true_iff.
  change AM_DIR with (2 ^ 4)%N. change AM_HID with (2 ^ 1)%N.
  change AM_SYS with (2 ^ 2)%N. rewrite !land_pow2_0. tauto.
Qed.

Lemma ScanROMs_loop_opens E answers s :
  in_bounds E answers = true ->
  opens (trace (ScanROMs_loop E answers s).2)
  = opens (trace s) ++ map path_of (List.filter plain_file (visited answers)).
Proof.
  revert s. induction answers as [|[result fileInfo] rest IH]; intros s Hb.
  - simpl. by rewrite app_nil_r.
  - rewrite ScanROMs_loop_cons by done. cbn [visited].
    destruct (is_FR_OK result && _) eqn:Hv;
      [| simpl; by rewrite app_nil_r].
    pose proof (in_bounds_cons _ _ _ _ Hb Hv) as Hb'.
    rewrite attribute_test. cbn [List.filter].
    destruct (plain_file fileInfo); [| by apply IH].
    fold (path_of fileInfo).
    rewrite IH by done. destruct (CheckROM_spec E (path_of fileInfo) s) as [Ho _].
    rewrite Ho. simpl. by rewrite <- app_assoc.
Qed.

(** X12.  On a ROM directory whose names fit the path buffer, the walk
    of [ScanROMs] calls [CheckROM] once for each plain file, in the
    order of the enumeration and with the path [roms/<name>], and for
    nothing else: not for an entry with the directory, hidden or system
    attribute, and not for any entry from the first answer on that is
    an error or has an empty name. *)
Theorem walk_opens_plain_files E s :
  names_fit E = true ->
  opens (trace (walk E s))
  = opens (trace s)
    ++ map path_of (List.filter plain_file (visited (f_find E ROMPath))).
Proof. apply ScanROMs_loop_opens. Qed.

Lemma walk_opens_plain_files_witness :
  names_fit old_control_cm32l_pcm = true
  /\ opens (trace (walk old_control_cm32l_pcm power_on))
     = opens (trace power_on)
       ++ map path_of
            (List.filter plain_file
               (visited (f_find old_control_cm32l_pcm ROMPath))).
Proof.
  assert (Hb : names_fit old_control_cm32l_pcm = true)
    by (vm_compute; reflexivity).
  split; [exact Hb |].
  exact (walk_opens_plain_files old_control_cm32l_pcm power_on Hb).
Defined.

(** ** Allocation *)

Lemma extends_refl s : store_inv s -> extends s s.
Proof.
  intros [_ Hlive]. rewrite Forall_forall in Hlive.
  split; [| split; [done | by left]].
  apply set_eq. intros a.
  rewrite elem_of_union, elem_of_list_to_set. split; [by left |].
  intros [?|?]; [done | by apply Hlive].
Qed.

Lemma extends_trans s1 s2 s3 : extends s1 s2 -> extends s2 s3 -> extends s1 s3.
Proof.
  intros (Hh12 & Hm12 & Hn12) (Hh23 & Hm23 & Hn23).
  split; [| split].
  - rewrite Hh23, Hh12. apply set_eq. intros a.
    rewrite !elem_of_union, !elem_of_list_to_set.
    split; [| tauto]. intros [[?|?]|?]; [tauto | | tauto].
    right. by apply Hm23.
  - intros a Ha. by apply Hm23, Hm12.
  - intros a Ha. destruct (Hn23 a Ha) as [H2|H2].
    + by apply Hn12.
    + right. intros H1. apply H2. rewrite Hh12.
      apply elem_of_union. by left.
Qed.

Lemma extends_CheckROM E pPath s :
  store_inv s -> extends s (CheckROM E pPath s).2.
Proof.
  intros Hinv.
  destruct (CheckROM_spec E pPath s)
    as [_ [(_ & Hs & Hh)|(_ & _ & Hh & target & Hl & _ & Hs)]].
  - unfold extends. rewrite Hs, Hh. by apply extends_refl.
  - destruct Hinv as [_ Hlive]. rewrite Forall_forall in Hlive.
    pose proof (alloc_fresh E (heap s)) as Hfresh.
    unfold extends. rewrite Hs, Hh. split; [| split].
    + apply set_eq. intros a.
      rewrite !elem_of_union, elem_of_list_to_set, elem_of_singleton.
      rewrite (elem_of_images_store target _ a (self s) Hl).
      split; [tauto |]. intros [?|[?|?]]; [tauto | tauto |].
      right. by apply Hlive.
    + intros a Ha. apply elem_of_images_store; [done | by right].
    + intros a Ha. apply elem_of_images_store in Ha; [| done].
      destruct Ha as [->|Ha]; [by right | by left].
Qed.

Lemma extends_ScanROMs_loop E answers s :
  in_bounds E answers = true ->
  store_inv s -> extends s (ScanROMs_loop E answers s).2.
Proof.
  revert s. induction answers as [|[result fileInfo] rest IH]; intros s Hb Hs.
  - by apply extends_refl.
  - rewrite ScanROMs_loop_cons by done.
    destruct (is_FR_OK result && _) eqn:Hv; [| by apply extends_refl].
    pose proof (in_bounds_cons _ _ _ _ Hb Hv) as Hb'.
    destruct (N.eqb _ 0); [| by apply IH].
    eapply extends_trans; [by apply extends_CheckROM |].
    by apply IH, store_inv_CheckROM.
Qed.

Lemma extends_ScanROMs E s :
  names_fit E = true -> store_inv s -> extends s (ScanROMs E s).2.
Proof.
  intros Hb Hs. rewrite ScanROMs_unfold.
  assert (H1 : extends s (walk E s)) by by apply extends_ScanROMs_loop.
  assert (Hi1 : store_inv (walk E s)) by by apply store_inv_ScanROMs_loop.
  destruct (HaveROMSet _ Any); [done |].
  assert (H2 : extends s (CheckROM E MT32ControlROMName (walk E s)).2)
    by (eapply extends_trans; [exact H1 | by apply extends_CheckROM]).
  destruct (CheckROM E MT32ControlROMName (walk E s)).1; [| done].
  eapply extends_trans; [exact H2 |].
  by apply extends_CheckROM, store_inv_CheckROM.
Qed.

(** X13.  On a ROM directory whose names fit the path buffer,
    [ScanROMs] leaks no image: from a state that satisfies the
    invariant of the store, what is allocated afterwards is what was
    allocated before together with the images the manager holds, so
    every image made for a file that was refused has been released;
    and every image the manager has gained is a new allocation. *)
Theorem ScanROMs_no_leak E s :
  names_fit E = true ->
  store_inv s ->
  heap (ScanROMs E s).2
  = heap s ∪ list_to_set (images (self (ScanROMs E s).2))
  /\ (forall a, a ∈ images (self (ScanROMs E s).2) ->
        a ∈ images (self s) \/ a ∉ heap s).
Proof.
  intros Hb Hs. destruct (extends_ScanROMs E s Hb Hs) as (Hh & _ & Hn).
  done.
Qed.

Lemma ScanROMs_no_leak_witness :
  names_fit old_control_cm32l_pcm = true
  /\ store_inv power_on
  /\ heap (ScanROMs old_control_cm32l_pcm power_on).2
     = heap power_on
       ∪ list_to_set
           (images (self (ScanROMs old_control_cm32l_pcm power_on).2)).
Proof.
  assert (Hb : names_fit old_control_cm32l_pcm = true)
    by (vm_compute; reflexivity).
  assert (Hinv : store_inv power_on) by compute_done.
  split; [exact Hb |]. split; [exact Hinv |].
  exact (proj1 (ScanROMs_no_leak old_control_cm32l_pcm power_on Hb Hinv)).
Defined.

(** X14.  Constructing the manager, scanning a ROM directory whose
    names fit the path buffer and destroying the manager leaves
    allocated exactly what was allocated before the construction,
    whatever the files hold. *)
Theorem lifecycle_restores_heap E FileSystem h t :
  names_fit E = true ->
  heap (CROMManager_delete
          (ScanROMs E {| self := CROMManager_new FileSystem;
                         heap := h; trace := t |}).2).2
  = h.
Proof.
  intros Hb.
  set (s0 := {| self := CROMManager_new FileSystem; heap := h; trace := t |}).
  destruct (extends_ScanROMs E s0 Hb (store_inv_new FileSystem h t))
    as (Hh & _ & Hn).
  unfold CROMManager_delete. rewrite free_each_spec.
  fold (images (self (ScanROMs E s0).2)). cbn [snd heap].
  rewrite Hh. apply set_eq. intros a.
  rewrite elem_of_difference, elem_of_union, elem_of_list_to_set.
  split; [tauto |]. intros Ha. split; [by left |].
  intros Hin. destruct (Hn a Hin) as [H0|H0]; [| done].
  by apply elem_of_nil in H0.
Qed.

Lemma lifecycle_restores_heap_witness :
  names_fit old_control_cm32l_pcm = true
  /\ heap (CROMManager_delete
             (ScanROMs old_control_cm32l_pcm
                {| self := CROMManager_new 1%positive;
                   heap := {[ 7%positive ]}; trace := [] |}).2).2
     = {[ 7%positive ]}.
Proof.
  assert (Hb : names_fit old_control_cm32l_pcm = true)
    by (vm_compute; reflexivity).
  split; [exact Hb |].
  exact (lifecycle_restores_heap old_control_cm32l_pcm 1%positive
           {[ 7%positive ]} [] Hb).
Defined.

(** ** Scanning again *)

Lemma CheckROM_result E pPath s :
  (CheckROM E pPath s).1
  = FileStream_open E pPath
    && (StoreROM (image_at E pPath (heap s)) (self s)).1
  /\ self (CheckROM E pPath s).2
     = if FileStream_open E pPath
       then (StoreROM (image_at E pPath (heap s)) (self s)).2
       else self s.
Proof.
  unfold CheckROM, open, emit, makeROMImage, on_self, freeROMImage.
  unfold mbind, M_bind, mret, M_ret. simpl.
  destruct (FileStream_open E pPath); simpl; [| done].
  fold (image_at E pPath (heap s)).
  destruct (StoreROM (image_at E pPath (heap s)) (self s))
    as [[] this'] eqn:Hs; simpl; [done |].
  by rewrite (StoreROM_false _ _ _ Hs).
Qed.

(** What a successful [CheckROM] has done to the manager. *)
Lemma CheckROM_true_target E pPath s :
  (CheckROM E pPath s).1 = true ->
  exists romInfo target,
    identify E pPath = Some romInfo
    /\ romPtr romInfo = Some target
    /\ load target (self s) = nullptr
    /\ self (CheckROM E pPath s).2
       = store target (Some (alloc E (heap s))) (self s).
Proof.
  destruct (CheckROM_result E pPath s) as [-> ->].
  intros [Ho Hst]%andb_true_iff. rewrite Ho.
  rewrite StoreROM_target_of in *. unfold target_of, store_into in *.
  simpl in *.
  destruct (identify E pPath) as [romInfo|]; [| done].
  destruct (romPtr romInfo) as [target|] eqn:Hp; [| done].
  destruct (load target (self s)) eqn:Hl; [done |].
  by exists romInfo, target.
Qed.

Lemma CheckROM_settled E pPath s :
  settled E pPath (self s) ->
  (CheckROM E pPath s).1 = false
  /\ self (CheckROM E pPath s).2 = self s
  /\ heap (CheckROM E pPath s).2 = heap s.
Proof.
  intros Hset.
  destruct (CheckROM_spec E pPath s)
    as [_ [(? & ? & ?)|(Hr & Ho & _)]]; [done |].
  destruct (CheckROM_true_target E pPath s Hr)
    as (romInfo & target & Hi & Hp & Hl & _).
  destruct (Hset Ho romInfo target Hi Hp) as [a Ha]. congruence.
Qed.

Lemma CheckROM_settles E pPath s :
  settled E pPath (self (CheckROM E pPath s).2).
Proof.
  intros Ho romInfo target Hi Hp.
  destruct (CheckROM_result E pPath s) as [_ ->]. rewrite Ho.
  rewrite (StoreROM_store_into _ _ romInfo target) by done.
  unfold store_into. destruct (load target (self s)) eqn:Hl; simpl.
  - rewrite Hl. by eexists.
  - rewrite load_store_eq. by eexists.
Qed.

Lemma settled_keeps E pPath this this' :
  (forall rom a, load rom this = Some a -> load rom this' = Some a) ->
  settled E pPath this -> settled E pPath this'.
Proof.
  intros Hk Hset Ho romInfo target Hi Hp.
  destruct (Hset Ho romInfo target Hi Hp) as [a Ha].
  exists a. by apply Hk.
Qed.

Lemma ScanROMs_loop_settles E answers s fileInfo :
  in_bounds E answers = true ->
  In fileInfo (List.filter plain_file (visited answers)) ->
  settled E (path_of fileInfo) (self (ScanROMs_loop E answers s).2).
Proof.
  revert s. induction answers as [|[result fi] rest IH]; intros s Hb Hin.
  - done.
  - rewrite ScanROMs_loop_cons by done. cbn [visited] in Hin.
    destruct (is_FR_OK result && _) eqn:Hv; [| done].
    pose proof (in_bounds_cons _ _ _ _ Hb Hv) as Hb'.
    rewrite attribute_test. cbn [List.filter] in Hin.
    destruct (plain_file fi); [| by apply IH].
    destruct Hin as [->|Hin]; [| by apply IH].
    fold (path_of fileInfo).
    eapply settled_keeps; [| apply CheckROM_settles].
    intros rom a. by apply ScanROMs_loop_keeps.
Qed.

Lemma ScanROMs_loop_settled E answers s :
  in_bounds E answers = true ->
  (forall fileInfo, In fileInfo (List.filter plain_file (visited answers)) ->
                    settled E (path_of fileInfo) (self s)) ->
  self (ScanROMs_loop E answers s).2 = self s
  /\ heap (ScanROMs_loop E answers s).2 = heap s.
Proof.
  revert s. induction answers as [|[result fi] rest IH]; intros s Hb Hall.
  - done.
  - rewrite ScanROMs_loop_cons by done. cbn [visited] in Hall.
    destruct (is_FR_OK result && _) eqn:Hv; [| done].
    pose proof (in_bounds_cons _ _ _ _ Hb Hv) as Hb'.
    rewrite attribute_test. cbn [List.filter] in Hall.
    destruct (plain_file fi); [| by apply IH].
    fold (path_of fi).
    destruct (CheckROM_settled E (path_of fi) s) as (_ & Hs & Hh);
      [apply Hall; by left |].
    destruct (IH (CheckROM E (path_of fi) s).2 Hb') as [Hs' Hh'].
    { intros fileInfo Hin. rewrite Hs. apply Hall. by right. }
    by rewrite Hs', Hh', Hs, Hh.
Qed.

(** X15.  On a ROM directory whose names fit the path buffer, walking
    the directory a second time changes neither the manager nor what is
    allocated: every file is refused or fails as before.  And once a
    scan has found a complete set in the directory, scanning again
    succeeds again and changes neither. *)
Theorem rescan_changes_nothing E s :
  names_fit E = true ->
  (self (walk E (walk E s)) = self (walk E s)
   /\ heap (walk E (walk E s)) = heap (walk E s))
  /\ (HaveROMSet (self (walk E s)) Any = true ->
      (ScanROMs E (ScanROMs E s).2).1 = true
      /\ self (ScanROMs E (ScanROMs E s).2).2 = self (ScanROMs E s).2
      /\ heap (ScanROMs E (ScanROMs E s).2).2 = heap (ScanROMs E s).2).
Proof.
  intros Hb.
  assert (Hw : self (walk E (walk E s)) = self (walk E s)
               /\ heap (walk E (walk E s)) = heap (walk E s)).
  { apply ScanROMs_loop_settled; [done |]. intros fileInfo Hin.
    by apply ScanROMs_loop_settles. }
  split; [exact Hw |]. intros H.
  rewrite (ScanROMs_unfold E s), H. cbn [snd].
  rewrite (ScanROMs_unfold E (walk E s)).
  destruct Hw as [Hs Hh]. rewrite Hs, H. done.
Qed.

Lemma rescan_changes_nothing_witness :
  let E := old_control_cm32l_pcm in
  names_fit E = true
  /\ HaveROMSet (self (walk E power_on)) Any = true
  /\ (ScanROMs E (ScanROMs E power_on).2).1 = true
  /\ self (ScanROMs E (ScanROMs E power_on).2).2
     = self (ScanROMs E power_on).2.
Proof.
  intros E.
  assert (Hb : names_fit E = true) by (vm_compute; reflexivity).
  assert (H : HaveROMSet (self (walk E power_on)) Any = true)
    by (vm_compute; reflexivity).
  split; [exact Hb |]. split; [exact H |].
  destruct (rescan_changes_nothing E power_on Hb) as [_ Hre].
  destruct (Hre H) as (H1 & H2 & _). by split.
Defined.

(** X16.  On a volume where no path opens and the names of the ROM
    directory fit the path buffer, [ScanROMs] changes neither the
    manager nor what is allocated, and returns whether a complete set
    was there already. *)
Theorem ScanROMs_nothing_opens E s :
  names_fit E = true ->
  (forall pPath, FileStream_open E pPath = false) ->
  (ScanROMs E s).1 = HaveROMSet (self s) Any
  /\ self (ScanROMs E s).2 = self s
  /\ heap (ScanROMs E s).2 = heap s.
Proof.
  intros Hb Hno.
  assert (Hset : forall pPath this, settled E pPath this).
  { intros pPath this Ho. rewrite Hno in Ho. done. }
  destruct (ScanROMs_loop_settled E (f_find E ROMPath) s) as [Hs Hh];
    [exact Hb | intros; apply Hset |].
  fold (walk E s) in Hs, Hh.
  rewrite ScanROMs_unfold, Hs.
  destruct (HaveROMSet (self s) Any); [done |].
  destruct (CheckROM_settled E MT32ControlROMName (walk E s))
    as (Hr & Hs1 & Hh1); [apply Hset |].
  rewrite Hr. cbn [fst snd]. by rewrite Hs1, Hh1.
Qed.

Lemma ScanROMs_nothing_opens_witness :
  let E := machine [(FR_OK, {| fname := "a.rom"; fattrib := 0 |})] ∅ in
  names_fit E = true
  /\ (forall pPath, FileStream_open E pPath = false)
  /\ (ScanROMs E power_on).1 = false
  /\ self (ScanROMs E power_on).2 = self power_on.
Proof.
  intros E.
  assert (Hb : names_fit E = true) by (vm_compute; reflexivity).
  assert (Hno : forall pPath, FileStream_open E pPath = false).
  { intros pPath. simpl. rewrite lookup_empty.
    apply bool_decide_eq_false. by intros [? ?]. }
  split; [exact Hb |]. split; [exact Hno |].
  destruct (ScanROMs_nothing_opens E power_on Hb Hno) as (H1 & H2 & _).
  by split.
Defined.

(** ** What a successful scan has found *)

Lemma filled_control_member this target :
  control_member target = true -> is_Some (load target this) ->
  is_Some (mMT32OldControl this) \/ is_Some (mMT32NewControl this)
  \/ is_Some (mCM32LControl this).
Proof. destruct target; simpl; try done; tauto. Qed.

Lemma filled_PCM_member this target :
  control_member target = false -> is_Some (load target this) ->
  is_Some (mMT32PCM this) \/ is_Some (mCM32LPCM this).
Proof. destruct target; simpl; try done; tauto. Qed.

(** X17.  When the legacy control name holds no recognised image but a
    [Control] one and the legacy PCM name none but a [PCM] one, a
    [ScanROMs] that returns [true] leaves a complete [Any] set. *)
Theorem ScanROMs_true_complete E s :
  (forall romInfo, identify E MT32ControlROMName = Some romInfo ->
                   type romInfo = Control) ->
  (forall romInfo, identify E MT32PCMROMName = Some romInfo ->
                   type romInfo = PCM) ->
  (ScanROMs E s).1 = true ->
  HaveROMSet (self (ScanROMs E s).2) Any = true.
Proof.
  intros Hctl Hpcm. rewrite ScanROMs_unfold.
  destruct (HaveROMSet (self (walk E s)) Any) eqn:Hw; [done |].
  set (s1 := walk E s).
  destruct (CheckROM E MT32ControlROMName s1).1 eqn:Hc; [| done].
  set (s2 := (CheckROM E MT32ControlROMName s1).2).
  intros Hp.
  destruct (CheckROM_true_target E MT32ControlROMName s1 Hc)
    as (ri1 & t1 & Hi1 & Hp1 & _ & Hs2).
  destruct (CheckROM_true_target E MT32PCMROMName s2 Hp)
    as (ri2 & t2 & Hi2 & Hp2 & _ & Hs3).
  pose proof (romPtr_kind ri1) as Hk1. rewrite Hp1, (Hctl ri1 Hi1) in Hk1.
  pose proof (romPtr_kind ri2) as Hk2. rewrite Hp2, (Hpcm ri2 Hi2) in Hk2.
  destruct Hk1 as [Hk1 _]. destruct Hk2 as [Hk2 _]. simpl in Hk1, Hk2.
  assert (H1 : is_Some (load t1 (self s2))).
  { fold s2 in Hs2. rewrite Hs2, load_store_eq. by eexists. }
  assert (H2 : is_Some (load t2 (self (CheckROM E MT32PCMROMName s2).2)))
    by (rewrite Hs3, load_store_eq; by eexists).
  assert (H1' : is_Some (load t1 (self (CheckROM E MT32PCMROMName s2).2))).
  { destruct H1 as [a Ha]. exists a. by apply CheckROM_keeps. }
  apply (HaveROMSet_true _ Any). split.
  - by apply (filled_control_member _ t1).
  - by apply (filled_PCM_member _ t2).
Qed.

(** The legacy files as the original loader expects them. *)
Example ScanROMs_true_complete_legacy_volume :
  let E := machine []
             (list_to_map
                [("MT32_CONTROL.ROM",
                  Some {| type := Control; shortName := "ctrl_mt32_1_07" |});
                 ("MT32_PCM.ROM",
                  Some {| type := PCM; shortName := "pcm_mt32" |})]) in
  (ScanROMs E power_on).1 = true
  /\ HaveROMSet (self (ScanROMs E power_on).2) MT32Old = true.
Proof. by vm_compute. Qed.

Lemma ScanROMs_true_complete_witness :
  let E := machine []
             (list_to_map
                [("MT32_CONTROL.ROM",
                  Some {| type := Control; shortName := "ctrl_mt32_1_07" |});
                 ("MT32_PCM.ROM",
                  Some {| type := PCM; shortName := "pcm_mt32" |})]) in
  (ScanROMs E power_on).1 = true
  /\ HaveROMSet (self (ScanROMs E power_on).2) Any = true.
Proof.
  intros E.
  assert (H : (ScanROMs E power_on).1 = true) by (vm_compute; reflexivity).
  split; [exact H |].
  apply (ScanROMs_true_complete E power_on); [| | exact H].
  - intros romInfo Hi. vm_compute in Hi. by injection Hi as <-.
  - intros romInfo Hi. vm_compute in Hi. by injection Hi as <-.
Defined.

(** Without that, [true] need not mean a complete set: two PCM images
    under the legacy names are both stored. *)
Example ScanROMs_true_without_set :
  let E := machine []
             (list_to_map
                [("MT32_CONTROL.ROM",
                  Some {| type := PCM; shortName := "pcm_mt32" |});
                 ("MT32_PCM.ROM",
                  Some {| type := PCM; shortName := "pcm_cm32l" |})]) in
  (ScanROMs E power_on).1 = true
  /\ HaveROMSet (self (ScanROMs E power_on).2) Any = false.
Proof. by vm_compute. Qed.

(** ** Reachable states *)

(** X18.  In every state the program gets into from the constructor
    through [CheckROM] and through [ScanROMs] on ROM directories whose
    names fit the path buffer, no image sits in two members of the
    manager and every image a member points at is allocated. *)
Theorem reachable_members_sound s :
  reachable s ->
  (forall rom1 rom2 a,
     load rom1 (self s) = Some a -> load rom2 (self s) = Some a ->
     rom1 = rom2)
  /\ (forall rom a, load rom (self s) = Some a -> a ∈ heap s).
Proof.
  intros Hr. destruct (reachable_store_inv s Hr) as [Hnd Hlive].
  rewrite Forall_forall in Hlive. split.
  - intros rom1 rom2 a. by apply NoDup_images_load.
  - intros rom a Ha. apply Hlive, elem_of_images. eauto.
Qed.

Lemma reachable_members_sound_witness :
  let s := (ScanROMs old_control_cm32l_pcm power_on).2 in
  reachable s
  /\ (forall rom a, load rom (self s) = Some a -> a ∈ heap s).
Proof.
  intros s.
  assert (Hr : reachable s).
  { apply reachable_ScanROMs; [vm_compute; reflexivity |].
    apply reachable_new. }
  split; [exact Hr |].
  exact (proj2 (reachable_members_sound s Hr)).
Defined.

(** X19.  A manager that has just been constructed has no set of any
    kind, [GetROMSet] fails for every kind and writes no output, and
    destroying it calls no collaborator and releases nothing. *)
Theorem fresh_manager_empty FileSystem ROMSet c0 p0 h t :
  HaveROMSet (CROMManager_new FileSystem) ROMSet = false
  /\ GetROMSet (CROMManager_new FileSystem) ROMSet c0 p0
     = {| ok := false; outControl := c0; outPCM := p0 |}
  /\ CROMManager_delete
       {| self := CROMManager_new FileSystem; heap := h; trace := t |}
     = (tt, {| self := CROMManager_new FileSystem; heap := h; trace := t |}).
Proof.
  split; [by destruct ROMSet |]. split; [by destruct ROMSet |].
  unfold CROMManager_delete. rewrite free_each_spec. simpl.
  by rewrite difference_empty_L, app_nil_r.
Qed.

(** ** What the walk fills *)

Lemma CheckROM_filled E pPath s target :
  is_Some (load target (self (CheckROM E pPath s).2)) ->
  is_Some (load target (self s)) \/ offers E pPath target.
Proof.
  intros Hf.
  destruct (CheckROM_spec E pPath s)
    as [_ [(_ & Hs & _)|(Hr & Ho & _)]].
  - left. by rewrite <- Hs.
  - destruct (CheckROM_true_target E pPath s Hr)
      as (romInfo & t & Hi & Hp & _ & Hs).
    destruct (decide (target = t)) as [->|Hne].
    + right. split; [done |]. by exists romInfo.
    + left. rewrite Hs, load_store_ne in Hf; done.
Qed.

Lemma CheckROM_offered E pPath s target :
  offers E pPath target ->
  is_Some (load target (self (CheckROM E pPath s).2)).
Proof.
  intros (Ho & romInfo & Hi & Hp).
  by apply (CheckROM_settles E pPath s Ho romInfo target).
Qed.

Lemma ScanROMs_loop_fills E answers s target :
  in_bounds E answers = true ->
  is_Some (load target (self (ScanROMs_loop E answers s).2)) <->
    is_Some (load target (self s))
    \/ exists pPath,
         In pPath (map path_of (List.filter plain_file (visited answers)))
         /\ offers E pPath target.
Proof.
  revert s. induction answers as [|[result fi] rest IH]; intros s Hb.
  - simpl. split; [by left |]. by intros [?|(? & [] & _)].
  - rewrite ScanROMs_loop_cons by done. cbn [visited].
    destruct (is_FR_OK result && _) eqn:Hv;
      [| simpl; split; [by left |]; by intros [?|(? & [] & _)]].
    pose proof (in_bounds_cons _ _ _ _ Hb Hv) as Hb'.
    rewrite attribute_test. cbn [List.filter].
    destruct (plain_file fi); [| by apply IH].
    fold (path_of fi). rewrite IH by done. cbn [map In]. split.
    + intros [Hf|(pPath & Hin & Hoff)].
      * apply CheckROM_filled in Hf as [Hf|Hoff]; [by left |].
        right. exists (path_of fi). tauto.
      * right. exists pPath. tauto.
    + intros [[a Ha]|(pPath & [<-|Hin] & Hoff)].
      * left. exists a. by apply CheckROM_keeps.
      * left. by apply CheckROM_offered.
      * right. by exists pPath.
Qed.

(** X20.  After the walk of [ScanROMs] over a ROM directory whose
    names fit the path buffer, a member is filled exactly when it was
    filled before or some plain file of the directory offers an image
    for it. *)
Theorem walk_fills_iff E s target :
  names_fit E = true ->
  is_Some (load target (self (walk E s))) <->
    is_Some (load target (self s))
    \/ exists pPath, In pPath (candidates E) /\ offers E pPath target.
Proof. apply ScanROMs_loop_fills. Qed.

Lemma walk_fills_iff_witness :
  let E := old_control_cm32l_pcm in
  names_fit E = true
  /\ is_Some (load AtCM32LPCM (self (walk E power_on))).
Proof.
  intros E.
  assert (Hb : names_fit E = true) by (vm_compute; reflexivity).
  split; [exact Hb |].
  apply (walk_fills_iff E power_on AtCM32LPCM Hb).
  right. exists "roms/b.rom". split.
  - vm_compute. tauto.
  - split; [by vm_compute |]. by eexists.
Defined.

(** X21.  When the names of the ROM directory fit the path buffer and
    the directory offers an image for a control member and an image for
    a PCM member, [ScanROMs] returns [true] in the state the walk ends
    in and with a complete [Any] set: the legacy names are not
    tried. *)
Theorem ScanROMs_directory_suffices E s pControl control pPCM pcm :
  names_fit E = true ->
  In pControl (candidates E) -> offers E pControl control ->
  control_member control = true ->
  In pPCM (candidates E) -> offers E pPCM pcm ->
  control_member pcm = false ->
  ScanROMs E s = (true, walk E s)
  /\ HaveROMSet (self (walk E s)) Any = true
  /\ opens (trace (ScanROMs E s).2) = opens (trace s) ++ candidates E.
Proof.
  intros Hb Hinc Hoc Hkc Hinp Hop Hkp.
  assert (Hc : is_Some (load control (self (walk E s))))
    by (apply ScanROMs_loop_fills; [done |]; right; by exists pControl).
  assert (Hp : is_Some (load pcm (self (walk E s))))
    by (apply ScanROMs_loop_fills; [done |]; right; by exists pPCM).
  assert (H : HaveROMSet (self (walk E s)) Any = true).
  { apply (HaveROMSet_true _ Any). split.
    - by apply (filled_control_member _ control).
    - by apply (filled_PCM_member _ pcm). }
  rewrite ScanROMs_unfold, H. split; [done |]. split; [done |].
  by apply ScanROMs_loop_opens.
Qed.

Lemma ScanROMs_directory_suffices_witness :
  let E := machine
             [(FR_OK, {| fname := "ctrl.rom"; fattrib := 32 |});
              (FR_OK, {| fname := "pcm.rom"; fattrib := 32 |})]
             (list_to_map
                [("roms/ctrl.rom",
                  Some {| type := Control; shortName := "ctrl_mt32_1_07" |});
                 ("roms/pcm.rom",
                  Some {| type := PCM; shortName := "pcm_mt32" |})]) in
  names_fit E = true
  /\ candidates E = ["roms/ctrl.rom"; "roms/pcm.rom"]
  /\ ScanROMs E power_on = (true, walk E power_on)
  /\ opens (trace (ScanROMs E power_on).2) = candidates E.
Proof.
  intros E.
  assert (Hb : names_fit E = true) by (vm_compute; reflexivity).
  assert (Hc : candidates E = ["roms/ctrl.rom"; "roms/pcm.rom"])
    by (vm_compute; reflexivity).
  split; [exact Hb |]. split; [exact Hc |].
  destruct (ScanROMs_directory_suffices E power_on
              "roms/ctrl.rom" AtMT32OldControl "roms/pcm.rom" AtMT32PCM)
    as (H1 & _ & H2).
  - exact Hb.
  - rewrite Hc. by left.
  - split; [by vm_compute |]. by eexists.
  - reflexivity.
  - rewrite Hc. right. by left.
  - split; [by vm_compute |]. by eexists.
  - reflexivity.
  - by split.
Defined.

(** ** The path buffer *)

(** A name fits the path buffer when it is shorter than [FF_LFN_BUF]:
    the buffer has room for [FF_LFN_BUF] bytes after ["roms/"], the
    terminator of the name among them. *)
Lemma fits_iff E fileInfo :
  fits E fileInfo = true <-> String.length (fname fileInfo) < FF_LFN_BUF E.
Proof. unfold fits. rewrite Nat.leb_le. lia. Qed.

(** A name of [FF_LFN_BUF] characters, which the enumerator can
    deliver, does not fit: the walk ends in the state the overrun
    leaves, and here a member that was filled is lost. *)
Example longest_name_overruns :
  let s := (ScanROMs old_control_cm32l_pcm power_on).2 in
  String.length longest_name = FF_LFN_BUF longest_name_volume
  /\ names_fit longest_name_volume = false
  /\ load AtMT32OldControl (self s) = Some 1%positive
  /\ load AtMT32OldControl (self (walk longest_name_volume s)) = nullptr.
Proof. by vm_compute. Qed.
